(** * Face cluster store of hometube ([face-recognition-service.js])

    A shallow embedding of [FaceRecognitionService] and the properties of its
    incremental face clustering.

    Modelling choices, each following the JavaScript source:
    - a JS [Number] is an IEEE 754 binary64 value, so embeddings are lists of
      Rocq's primitive [float]s and every arithmetic step of
      [cosineSimilarity] rounds exactly as the source does;
    - [this.faceGroups] is a JS [Map]: an association list in insertion order
      with [Map.get], [Map.has] and [Map.set] written out ([Map.set] on a key
      that is present replaces the value in place);
    - the [faces] directory is a finite map from file name to the record
      read from it, and [face-groups.json] is a separate optional value,
      the clusters read from it. This is the directory as the code sees it
      as long as the numbers written are numbers [JSON] gives back (not
      [-0], [NaN] or an infinity), the cluster ids are keys a plain object
      keeps in order, the record file names are within the 255 bytes of a
      file name, and no image is named [face-groups], whose record file is
      [face-groups.json] itself. Where a property rests on one of these it
      says so, and [fileEntries] below has [JSON] and the plain object
      written out;
    - the media directory with what the face detector makes of each image,
      [Date.now()] and [Math.random()] are the environment [Env]; a call of
      the detector is taken to return or to throw;
    - every call of the detector, every file written and every call of the
      progress callback is appended to the [trace] of the store. *)

From Stdlib Require Import Floats ZArith List Bool Ascii String Lia.
From stdpp Require Import base strings gmap list pretty.
Import ListNotations.

(** * Definitions *)

(** ** Comparisons of JS numbers *)

Module F64.

(** JS [a > b] and [a === b] on numbers. *)
Definition gt (a b : float) : bool := PrimFloat.ltb b a.

Definition strict_eq (a b : float) : bool := PrimFloat.eqb a b.

End F64.

(** ** [cosineSimilarity] *)

(** The [for] loop of [cosineSimilarity]: [i] runs over [embedding1]; an index
    past the end of [embedding2] reads [undefined], which is [NaN] in
    arithmetic. *)
Fixpoint cosineLoop (embedding1 embedding2 : list float)
    (acc : float * float * float) : float * float * float :=
  match embedding1 with
  | [] => acc
  | x :: rest1 =>
      let '(dotProduct, norm1, norm2) := acc in
      let y := match embedding2 with [] => PrimFloat.nan | y :: _ => y end in
      cosineLoop rest1 (tail embedding2)
        (PrimFloat.add dotProduct (PrimFloat.mul x y),
         PrimFloat.add norm1 (PrimFloat.mul x x),
         PrimFloat.add norm2 (PrimFloat.mul y y))
  end.

(** Which [return] of [cosineSimilarity] is taken, with the operands of the
    division when it is reached. *)
Inductive CosineBranch :=
| ZeroNorm
| Divide (dotProduct norm1 norm2 : float).

Definition cosineBranch (embedding1 embedding2 : list float) : CosineBranch :=
  let '(dotProduct, norm1, norm2) :=
    cosineLoop embedding1 embedding2 (0%float, 0%float, 0%float) in
  let norm1 := PrimFloat.sqrt norm1 in
  let norm2 := PrimFloat.sqrt norm2 in
  if F64.strict_eq norm1 0%float || F64.strict_eq norm2 0%float then ZeroNorm
  else Divide dotProduct norm1 norm2.

Definition cosineSimilarity (embedding1 embedding2 : list float) : float :=
  match cosineBranch embedding1 embedding2 with
  | ZeroNorm => 0%float
  | Divide dotProduct norm1 norm2 =>
      PrimFloat.div dotProduct (PrimFloat.mul norm1 norm2)
  end.

(** The sum of squares the loop accumulates for one vector, on its own, and
    the norm [Math.sqrt] makes of it. *)
Definition sumSquares (v : list float) : float :=
  fold_left (fun acc x => PrimFloat.add acc (PrimFloat.mul x x)) v 0%float.

Definition norm (v : list float) : float := PrimFloat.sqrt (sumSquares v).

(** A component that is [+0] or [-0]. *)
Definition isZero (x : float) : Prop := x = 0%float \/ x = (-0)%float.


(** The dot product the loop accumulates. *)
Definition dotProduct (embedding1 embedding2 : list float) : float :=
  fst (fst (cosineLoop embedding1 embedding2 (0%float, 0%float, 0%float))).


(** ** Data model *)

Record Box := mkBox {
  boxX : float;
  boxY : float;
  boxWidth : float;
  boxHeight : float
}.

(** One detected face, as [detectFaces] returns it. *)
Record Face := mkFace {
  embedding : list float;
  box : Box
}.

(** The value of one entry of [this.faceGroups]. *)
Record Group := mkGroup {
  referenceEmbedding : list float;
  images : list string
}.

(** One element of [groups] in a per-image record. *)
Record GroupRef := mkGroupRef {
  groupId : string;
  similarity : float
}.

(** What [processImage] writes to [<facesDir>/<key>.json] and returns. *)
Record ImageFaceRecord := mkRecord {
  filename : string;
  faces : list Face;
  groups : list GroupRef
}.

(** A call either returns or throws an [Error] with a message. *)
Inductive Outcome (A : Type) :=
| Returned (a : A)
| Thrown (message : string).

Arguments Returned {A} a.
Arguments Thrown {A} message.

(** One element of the array [processImages] returns. *)
Inductive BatchEntry :=
| Processed (result : ImageFaceRecord)
| Failed (name error : string).

(** ** The JS [Map] behind [this.faceGroups] *)

Module JsMap.

Definition t := list (string * Group).

Fixpoint get (key : string) (m : t) : option Group :=
  match m with
  | [] => None
  | (k, v) :: rest => if String.eqb k key then Some v else get key rest
  end.

Definition has (key : string) (m : t) : bool :=
  match get key m with Some _ => true | None => false end.

(** [Map.prototype.set]: a present key keeps its place, a new key goes last. *)
Fixpoint set (key : string) (value : Group) (m : t) : t :=
  match m with
  | [] => [(key, value)]
  | (k, v) :: rest =>
      if String.eqb k key then (k, value) :: rest
      else (k, v) :: set key value rest
  end.

Definition keys (m : t) : list string := List.map fst m.

End JsMap.

(** ** Environment and store *)

(** What the service observes and cannot control. [imagePath] is
    [path.join(this.basePath, filename)]. [imageAt] tells what is at a path:
    no file ([None]), or a file on which the detector returns faces or throws
    (an unreadable image, models that are not there). The [n]-th cluster id
    ever generated reads the clock as [dateNow n] and
    [Math.random().toString(36).substr(2, 9)] as [randomSuffix n]. *)
Record Env := mkEnv {
  imagePath : string -> string;
  imageAt : string -> option (Outcome (list Face));
  dateNow : nat -> N;
  randomSuffix : nat -> string
}.

(** [fs.existsSync(imagePath)]. *)
Definition existsSync (env : Env) (path : string) : bool :=
  match imageAt env path with Some _ => true | None => false end.

(** [detectFaces(imagePath)]: reading a file that is not there throws. *)
Definition detectFaces (env : Env) (path : string) : Outcome (list Face) :=
  match imageAt env path with
  | Some outcome => outcome
  | None => Thrown "ENOENT: no such file or directory"
  end.

Inductive Event :=
| Detect (path : string)
| WriteRecord (name : string) (record : ImageFaceRecord)
| WriteGroups (data : JsMap.t)
| Progress (current total : nat) (name : string).

(** The service and its [faces] directory: the map in memory, for the name
    of each record file the record read from it, the clusters read from
    [face-groups.json] if the file is there, the count of ids generated so
    far, and the trace. The record files are kept apart from
    [face-groups.json]: they are one file for the image name [face-groups]
    alone. *)
Record Store := mkStore {
  faceGroups : JsMap.t;
  faceFiles : gmap string ImageFaceRecord;
  groupsFile : option JsMap.t;
  draws : nat;
  trace : list Event
}.

Definition withGroups (fg : JsMap.t) (st : Store) : Store :=
  mkStore fg (faceFiles st) (groupsFile st) (draws st) (trace st).

Definition logEvent (ev : Event) (st : Store) : Store :=
  mkStore (faceGroups st) (faceFiles st) (groupsFile st) (draws st)
    (trace st ++ [ev]).

(** [fs.writeFileSync(faceDataPath, JSON.stringify(result, null, 2))]: the
    file then reads back as [result], which is so when [JSON] gives back the
    numbers of [result]; the write is taken to succeed, where the code throws
    for a file name of more than [nameMax] bytes. *)
Definition writeRecord (name : string) (result : ImageFaceRecord) (st : Store) : Store :=
  mkStore (faceGroups st) (<[name := result]> (faceFiles st)) (groupsFile st)
    (draws st) (trace st ++ [WriteRecord name result]).

(** [saveFaceGroups]: [face-groups.json] then reads back as the map, which
    is so when the plain object keeps the keys in order and [JSON] gives back
    the numbers ([fileEntries] below is what the file holds in general). *)
Definition saveFaceGroups (st : Store) : Store :=
  mkStore (faceGroups st) (faceFiles st) (Some (faceGroups st)) (draws st)
    (trace st ++ [WriteGroups (faceGroups st)]).

(** [loadFaceGroups]: every entry of the file is [set] into the map; a missing
    or malformed file ([None]) leaves the map as it is. *)
Definition loadFaceGroups (st : Store) : Store :=
  match groupsFile st with
  | Some data =>
      withGroups
        (fold_left (fun m entry => JsMap.set (fst entry) (snd entry) m) data
           (faceGroups st)) st
  | None => st
  end.

(** The constructor: an empty map, then [loadFaceGroups]. *)
Definition newService (files : gmap string ImageFaceRecord)
    (persisted : option JsMap.t) : Store :=
  loadFaceGroups (mkStore [] files persisted 0 []).

(** ** [matchFace] *)

Definition defaultThreshold : float := 0x1.3333333333333p-1%float.

(** The loop of [matchFace] over [this.faceGroups.entries()]. *)
Fixpoint matchLoop (emb : list float) (entries : JsMap.t)
    (bestMatch : option string) (bestSimilarity : float) : option string * float :=
  match entries with
  | [] => (bestMatch, bestSimilarity)
  | (faceId, groupData) :: rest =>
      let sim := cosineSimilarity emb (referenceEmbedding groupData) in
      if F64.gt sim bestSimilarity then matchLoop emb rest (Some faceId) sim
      else matchLoop emb rest bestMatch bestSimilarity
  end.

(** [bestMatch ? ... : null]: [null] and the empty string are falsy. *)
Definition truthy (s : string) : bool := negb (String.eqb s "").

Definition matchFace (emb : list float) (threshold : float) (fg : JsMap.t)
    : option (string * float) :=
  match matchLoop emb fg None threshold with
  | (Some faceId, sim) => if truthy faceId then Some (faceId, sim) else None
  | (None, _) => None
  end.

(** No entry of [entries] is more similar to [emb] than [bound]. *)
Definition noneAbove (emb : list float) (bound : float) (entries : JsMap.t) : Prop :=
  forall id g, In (id, g) entries ->
    F64.gt (cosineSimilarity emb (referenceEmbedding g)) bound = false.

(** ** [processImage] *)

(** [filename.replace(/\//g, '_')]. *)
Fixpoint replaceSlashes (s : string) : string :=
  match s with
  | EmptyString => EmptyString
  | String c rest =>
      String (if Ascii.eqb c "/"%char then "_"%char else c) (replaceSlashes rest)
  end.

(** The name of the record file inside [facesDir]. *)
Definition faceDataKey (name : string) : string := replaceSlashes name +:+ ".json".

(** The name, inside [facesDir], of the file [saveFaceGroups] writes and
    [loadFaceGroups] reads. *)
Definition groupsFileName : string := "face-groups.json".

(** The longest name a file can have, in bytes, on the usual file systems:
    [fs.writeFileSync] throws [ENAMETOOLONG] on a longer one. *)
Definition nameMax : nat := 255.

(** [`face_${Date.now()}_${Math.random().toString(36).substr(2, 9)}`]. *)
Definition generateId (env : Env) (n : nat) : string :=
  "face_" +:+ pretty (dateNow env n) +:+ "_" +:+ randomSuffix env n.

(** [group.images.includes(filename)]. *)
Definition includes (name : string) (l : list string) : bool :=
  existsb (String.eqb name) l.

(** The body of the loop over [detectionResult.faces]: the store after the
    face, and the element pushed on [groups]. [group.images.push(filename)]
    changes the group held by the map, hence the [set] under the same key. *)
Definition assignFace (env : Env) (name : string) (st : Store) (face : Face)
    : Store * GroupRef :=
  match matchFace (embedding face) defaultThreshold (faceGroups st) with
  | Some (gid, sim) =>
      let fg1 :=
        if JsMap.has gid (faceGroups st) then faceGroups st
        else JsMap.set gid (mkGroup (embedding face) []) (faceGroups st) in
      let fg2 :=
        match JsMap.get gid fg1 with
        | Some group =>
            if includes name (images group) then fg1
            else JsMap.set gid
                   (mkGroup (referenceEmbedding group) (images group ++ [name])) fg1
        | None => fg1 (* never taken: [gid] is a key of [fg1] *)
        end in
      (withGroups fg2 st, mkGroupRef gid sim)
  | None =>
      let gid := generateId env (draws st) in
      let fg := JsMap.set gid (mkGroup (embedding face) [name]) (faceGroups st) in
      (mkStore fg (faceFiles st) (groupsFile st) (S (draws st)) (trace st),
       mkGroupRef gid 1%float)
  end.

(** The whole loop, threading the store and the [groups] array. *)
Fixpoint assignFaces (env : Env) (name : string) (detected : list Face)
    (st : Store) (emitted : list GroupRef) : Store * list GroupRef :=
  match detected with
  | [] => (st, emitted)
  | face :: rest =>
      let '(st', entry) := assignFace env name st face in
      assignFaces env name rest st' (emitted ++ [entry])
  end.

Definition processImage (env : Env) (name : string) (st : Store)
    : Outcome ImageFaceRecord * Store :=
  let path := imagePath env name in
  if negb (existsSync env path) then (Thrown ("Image not found: " +:+ path), st)
  else
    let key := faceDataKey name in
    match faceFiles st !! key with
    | Some cached => (Returned cached, st)
    | None =>
        let st1 := logEvent (Detect path) st in
        match detectFaces env path with
        | Thrown message => (Thrown message, st1)
        | Returned detected =>
            if Nat.eqb (length detected) 0 then
              let result := mkRecord name [] [] in
              (Returned result, writeRecord key result st1)
            else
              let '(st2, emitted) := assignFaces env name detected st1 [] in
              let result :=
                mkRecord name
                  (List.map (fun f => mkFace (embedding f) (box f)) detected)
                  emitted in
              (Returned result, saveFaceGroups (writeRecord key result st2))
        end
    end.

(** ** Queries *)

Definition getFaceGroups (st : Store) : list (string * nat * list string) :=
  List.map (fun entry => (fst entry, length (images (snd entry)), images (snd entry)))
    (faceGroups st).

Definition getGroupImages (gid : string) (st : Store) : list string :=
  match JsMap.get gid (faceGroups st) with
  | Some group => images group
  | None => []
  end.

(** ** [processImages] *)

(** A progress callback: [None] when the call returns, [Some message] when it
    throws an [Error] with that message. *)
Definition Callback := nat -> nat -> string -> option string.

(** The [for] loop of [processImages] from index [i] on. *)
Fixpoint processImagesFrom (env : Env) (progressCallback : option Callback)
    (total i : nat) (filenames : list string) (st : Store)
    (results : list BatchEntry) : list BatchEntry * Store :=
  match filenames with
  | [] => (results, st)
  | name :: rest =>
      match processImage env name st with
      | (Returned result, st1) =>
          let results1 := results ++ [Processed result] in
          match progressCallback with
          | Some callback =>
              let st2 := logEvent (Progress (i + 1) total name) st1 in
              match callback (i + 1) total name with
              | None => processImagesFrom env progressCallback total (S i) rest st2 results1
              | Some message =>
                  processImagesFrom env progressCallback total (S i) rest st2
                    (results1 ++ [Failed name message])
              end
          | None => processImagesFrom env progressCallback total (S i) rest st1 results1
          end
      | (Thrown message, st1) =>
          processImagesFrom env progressCallback total (S i) rest st1
            (results ++ [Failed name message])
      end
  end.

Definition processImages (env : Env) (filenames : list string)
    (progressCallback : option Callback) (st : Store) : list BatchEntry * Store :=
  processImagesFrom env progressCallback (length filenames) 0 filenames st [].

(** ** Vocabulary for the properties of [processImages] *)

(** The element the loop of [processImages] pushes for one outcome of
    [processImage]. *)
Definition entryOf (name : string) (outcome : Outcome ImageFaceRecord) : BatchEntry :=
  match outcome with
  | Returned result => Processed result
  | Thrown message => Failed name message
  end.

(** No callback, or a callback that returns from every call. *)
Definition returnsNormally (progressCallback : option Callback) : Prop :=
  forall callback, progressCallback = Some callback ->
    forall current total name, callback current total name = None.

(** The arguments of the progress calls recorded in a trace, in order. *)
Definition progressCalls (tr : list Event) : list (nat * nat * string) :=
  flat_map (fun ev => match ev with
                      | Progress current total name => [(current, total, name)]
                      | _ => []
                      end) tr.

(** The store in which [processImages] processes the file at position [i]:
    the one left by the loop over the files before it. *)
Definition storeBeforeOf (env : Env) (progressCallback : option Callback)
    (total : nat) (filenames : list string) (i : nat) (st : Store) : Store :=
  snd (processImagesFrom env progressCallback total 0 (take i filenames) st []).

Definition storeBefore (env : Env) (progressCallback : option Callback)
    (filenames : list string) (i : nat) (st : Store) : Store :=
  storeBeforeOf env progressCallback (length filenames) filenames i st.

(** The progress call due for position [i]: [(i + 1, total, name)] when
    [processImage] returns for the file at that position, none when it
    throws. *)
Definition callAt (env : Env) (progressCallback : option Callback) (total : nat)
    (filenames : list string) (st : Store) (i : nat) : option (nat * nat * string) :=
  match filenames !! i with
  | Some name =>
      match fst (processImage env name
                   (storeBeforeOf env progressCallback total filenames i st)) with
      | Returned _ => Some (i + 1, total, name)
      | Thrown _ => None
      end
  | None => None
  end.

(** The calls due for a whole batch, in the order of the input. *)
Definition expectedCalls (env : Env) (progressCallback : option Callback)
    (filenames : list string) (st : Store) : list (nat * nat * string) :=
  omap (callAt env progressCallback (length filenames) filenames st)
    (seq 0 (length filenames)).

(** ** Operations and invariants of the store *)

(** The methods of the service. *)
Inductive Operation :=
| OpDetectFaces (path : string)
| OpCosineSimilarity (embedding1 embedding2 : list float)
| OpMatchFace (emb : list float) (threshold : float)
| OpProcessImage (name : string)
| OpGetFaceGroups
| OpGetGroupImages (gid : string)
| OpLoadFaceGroups
| OpSaveFaceGroups
| OpProcessImages (filenames : list string) (progressCallback : option Callback).

(** The store an operation leaves. [cosineSimilarity], [matchFace],
    [getFaceGroups] and [getGroupImages] only read, and [detectFaces] only
    calls the detector. *)
Definition run (env : Env) (op : Operation) (st : Store) : Store :=
  match op with
  | OpDetectFaces path => logEvent (Detect path) st
  | OpCosineSimilarity _ _ | OpMatchFace _ _ | OpGetFaceGroups | OpGetGroupImages _ => st
  | OpProcessImage name => snd (processImage env name st)
  | OpLoadFaceGroups => loadFaceGroups st
  | OpSaveFaceGroups => saveFaceGroups st
  | OpProcessImages filenames progressCallback =>
      snd (processImages env filenames progressCallback st)
  end.

(** Every cluster has at least one image, and no image twice. *)
Definition imagesValid (fg : JsMap.t) : Prop :=
  forall id g, In (id, g) fg -> images g <> [] /\ List.NoDup (images g).

(** Every cluster of [fg] is a cluster of [fg'] with the reference embedding
    it has in [fg]. *)
Definition referencesKept (fg fg' : JsMap.t) : Prop :=
  forall id g, JsMap.get id fg = Some g ->
    exists g', JsMap.get id fg' = Some g' /\ referenceEmbedding g' = referenceEmbedding g.

(** No cluster id is the empty string. *)
Definition idsTruthy (fg : JsMap.t) : Prop :=
  forall id g, In (id, g) fg -> id <> ""%string.

(** The part of the invariant that speaks of the map in memory only. *)
Definition MemoryInv (fg : JsMap.t) : Prop :=
  List.NoDup (JsMap.keys fg) /\ idsTruthy fg /\ imagesValid fg.

(** The invariant of the store: the map in memory is well formed, and
    [face-groups.json], when present, holds clusters that have an image and
    that are in memory with the same reference embedding. *)
Definition StoreInv (st : Store) : Prop :=
  MemoryInv (faceGroups st) /\
  forall data, groupsFile st = Some data ->
    imagesValid data /\
    forall id g, In (id, g) data ->
      exists g', JsMap.get id (faceGroups st) = Some g' /\
                 referenceEmbedding g' = referenceEmbedding g.

(** The ids still to be generated are new: none is a key of the map and no
    two of them are equal. *)
Definition FreshIds (env : Env) (st : Store) : Prop :=
  (forall n, draws st <= n -> JsMap.get (generateId env n) (faceGroups st) = None) /\
  (forall n m, draws st <= n -> draws st <= m ->
     generateId env n = generateId env m -> n = m).

(** The callback of the server, which prints a line. *)
Definition logProgress : Callback := fun _ _ _ => None.

(** ** Sample environments and stores *)

Definition sampleBox : Box := mkBox 10 20 64 64.

(** The media directory: two unlike faces in [two.jpg], one face in
    [a/b.jpg] and in [y.jpg], none in [empty.jpg], two files the detector
    cannot read, and nothing else. *)
Definition sampleImages (path : string) : option (Outcome (list Face)) :=
  if String.eqb path "/media/two.jpg" then
    Some (Returned [mkFace [1; 0]%float sampleBox; mkFace [0; 1]%float sampleBox])
  else if String.eqb path "/media/a/b.jpg" || String.eqb path "/media/y.jpg" then
    Some (Returned [mkFace [1; 0]%float sampleBox])
  else if String.eqb path "/media/empty.jpg" then Some (Returned [])
  else if String.eqb path "/media/a_b.jpg" || String.eqb path "/media/broken.jpg" then
    Some (Thrown "Input buffer contains unsupported image format")
  else None.

(** The clock advances by a millisecond between two ids. *)
Definition tickingEnv : Env :=
  mkEnv (fun name => "/media/" +:+ name) sampleImages
    (fun n => (1700000000000 + N.of_nat n)%N) (fun _ => "k3x9q0zab"%string).

(** Two ids are generated within one millisecond and [Math.random()] gives
    the same nine characters both times. *)
Definition stalledEnv : Env :=
  mkEnv (fun name => "/media/" +:+ name) sampleImages
    (fun _ => 1700000000000%N) (fun _ => "k3x9q0zab"%string).

(** A media directory that also holds an image without a face whose name is
    [face-groups]. *)
Definition bareNameEnv : Env :=
  mkEnv (fun name => "/media/" +:+ name)
    (fun path =>
       if String.eqb path "/media/face-groups" then Some (Returned [])
       else sampleImages path)
    (fun n => (1700000000000 + N.of_nat n)%N) (fun _ => "k3x9q0zab"%string).

Definition emptyStore : Store := newService ∅ None.

(** A store that knows one person, seen in [x.jpg]. *)
Definition oneClusterStore : Store :=
  newService ∅ (Some [("A"%string, mkGroup [1; 0]%float ["x.jpg"%string])]).

(** A store that holds the record of [gone.jpg], an image that has been
    removed from the media directory since. *)
Definition staleStore : Store :=
  newService {[ "gone.jpg.json"%string := mkRecord "gone.jpg" [] [] ]} None.

(** A callback whose every call throws. *)
Definition failingCallback : Callback := fun _ _ _ => Some "write EPIPE"%string.

(** ** Vocabulary for the properties of persistence, queries and batches *)

(** Two stores that differ in their traces at most. *)
Definition sameState (s t : Store) : Prop :=
  faceGroups s = faceGroups t /\ faceFiles s = faceFiles t /\
  groupsFile s = groupsFile t /\ draws s = draws t.

(** The service constructed anew over the files a store has left. *)
Definition restart (st : Store) : Store := newService (faceFiles st) (groupsFile st).

(** [saveFaceGroups] copies the map into a plain object before it writes
    it. An object lists its string keys in the order they were added, but for
    the keys that are array indices, which come first, and [__proto__], which
    is no property of its own. A key that is not [__proto__] and does not
    start with a digit is neither. *)
Definition isDigit (c : ascii) : bool :=
  Nat.leb 48 (nat_of_ascii c) && Nat.leb (nat_of_ascii c) 57.

Definition ordinaryKey (id : string) : bool :=
  negb (String.eqb id "__proto__") &&
  match id with
  | EmptyString => true
  | String c _ => negb (isDigit c)
  end.

Definition ordinaryKeys (fg : JsMap.t) : Prop :=
  forall id g, In (id, g) fg -> ordinaryKey id = true.

(** ** What [face-groups.json] holds *)

(** A number after [JSON.stringify] and [JSON.parse]: [NaN] and the
    infinities are written [null] ([None]), [-0] is written [0], and every
    other number is written with digits that give it back. *)
Definition jsonNumber (x : float) : option float :=
  match Prim2SF x with
  | S754_nan | S754_infinity _ => None
  | S754_zero _ => Some 0%float
  | S754_finite _ _ _ => Some x
  end.

(** A cluster as [face-groups.json] holds it. *)
Record JsonGroup := mkJsonGroup {
  jsonReference : list (option float);
  jsonImages : list string
}.

Definition jsonGroup (g : Group) : JsonGroup :=
  mkJsonGroup (List.map jsonNumber (referenceEmbedding g)) (images g).

(** The value of a string of decimal digits. *)
Fixpoint digitsValue (s : string) (acc : N) : option N :=
  match s with
  | EmptyString => Some acc
  | String c rest =>
      if isDigit c then digitsValue rest (10 * acc + (N_of_ascii c - 48))%N
      else None
  end.

(** An array index: the decimal writing, without a leading zero, of an
    integer below [2^32 - 1]. *)
Definition arrayIndex (s : string) : option N :=
  match s with
  | EmptyString => None
  | String c rest =>
      if Ascii.eqb c "0" && negb (String.eqb rest "") then None
      else
        match digitsValue s 0 with
        | Some n => if (n <? 4294967295)%N then Some n else None
        | None => None
        end
  end.

(** The own properties of a plain object: those whose key is an array index,
    in ascending order, then the others in the order they were added. *)
Record JsObject := mkObject {
  indexed : list (N * JsonGroup);
  named : list (string * JsonGroup)
}.

Fixpoint setIndexed (n : N) (v : JsonGroup) (l : list (N * JsonGroup))
    : list (N * JsonGroup) :=
  match l with
  | [] => [(n, v)]
  | (m, w) :: rest =>
      if (n <? m)%N then (n, v) :: (m, w) :: rest
      else if (n =? m)%N then (n, v) :: rest
      else (m, w) :: setIndexed n v rest
  end.

Fixpoint setNamed (key : string) (v : JsonGroup) (l : list (string * JsonGroup))
    : list (string * JsonGroup) :=
  match l with
  | [] => [(key, v)]
  | (k, w) :: rest =>
      if String.eqb k key then (k, v) :: rest else (k, w) :: setNamed key v rest
  end.

(** Defining the property [key] of an object, as [JSON.parse] does for each
    member of the text. *)
Definition objectDefine (key : string) (v : JsonGroup) (o : JsObject) : JsObject :=
  match arrayIndex key with
  | Some n => mkObject (setIndexed n v (indexed o)) (named o)
  | None => mkObject (indexed o) (setNamed key v (named o))
  end.

(** [data[key] = v] on a plain object: the key [__proto__] sets the
    prototype and adds no property. *)
Definition objectAssign (key : string) (v : JsonGroup) (o : JsObject) : JsObject :=
  if String.eqb key "__proto__" then o else objectDefine key v o.

(** [Object.entries], which is also the order in which [JSON.stringify]
    writes the members. *)
Definition objectEntries (o : JsObject) : list (string * JsonGroup) :=
  List.map (fun e => (pretty (fst e), snd e)) (indexed o) ++ named o.

(** The members of the text [saveFaceGroups] writes for a map. *)
Definition writtenEntries (fg : JsMap.t) : list (string * JsonGroup) :=
  objectEntries
    (fold_left (fun o e => objectAssign (fst e) (jsonGroup (snd e)) o) fg
       (mkObject [] [])).

(** The entries [loadFaceGroups] finds in the file [saveFaceGroups] wrote:
    [Object.entries] of what [JSON.parse] makes of the text. *)
Definition fileEntries (fg : JsMap.t) : list (string * JsonGroup) :=
  objectEntries
    (fold_left (fun o e => objectDefine (fst e) (snd e) o) (writtenEntries fg)
       (mkObject [] [])).

(** The clusters the entries of a file stand for, when none of its numbers
    is [null]. *)
Definition readNumbers (l : list (option float)) : option (list float) :=
  fold_right (fun x acc =>
                match x, acc with
                | Some y, Some ys => Some (y :: ys)
                | _, _ => None
                end) (Some []) l.

Definition readClusters (entries : list (string * JsonGroup)) : option JsMap.t :=
  fold_right (fun e acc =>
                match readNumbers (jsonReference (snd e)), acc with
                | Some ref, Some m => Some ((fst e, mkGroup ref (jsonImages (snd e))) :: m)
                | _, _ => None
                end) (Some []) entries.

(** Every number of every reference embedding is one [JSON] gives back. *)
Definition jsonSafe (fg : JsMap.t) : Prop :=
  forall id g x, In (id, g) fg -> In x (referenceEmbedding g) -> jsonNumber x = Some x.



(** [s.includes(c)] for a character [c]. *)
Definition hasChar (c : ascii) (s : string) : bool :=
  existsb (Ascii.eqb c) (list_ascii_of_string s).

(** Calling [processImage] on each file name in turn. *)
Definition oneByOne (env : Env) (filenames : list string) (st : Store) : Store :=
  fold_left (fun s name => snd (processImage env name s)) filenames st.


(** How [processImage] on [name] may change the map: keys are only added,
    behind the ones there; a cluster that was there keeps its images, with
    [name] pushed behind them when it was not among them; a cluster that was
    not there holds [name] alone. *)
Definition grownBy (name : string) (fg fg' : JsMap.t) : Prop :=
  (exists added, JsMap.keys fg' = JsMap.keys fg ++ added) /\
  (forall id g, JsMap.get id fg = Some g ->
     exists g', JsMap.get id fg' = Some g' /\
       (images g' = images g \/
        (~ In name (images g) /\ images g' = images g ++ [name]))) /\
  (forall id g', JsMap.get id fg' = Some g' -> JsMap.get id fg = None ->
     images g' = [name]).

(** Over a batch: every cluster that was there is still there, its images
    followed by names of [names]. *)
Definition imagesGrow (names : list string) (fg fg' : JsMap.t) : Prop :=
  forall id g, JsMap.get id fg = Some g ->
    exists g' extra, JsMap.get id fg' = Some g' /\
      images g' = images g ++ extra /\ (forall x, In x extra -> In x names).

(** ** Case analysis on binary64 comparisons *)

Ltac order_cases :=
  repeat match goal with
    | |- context [Z.compare ?a ?b] => destruct (Z.compare_spec a b)
    | |- context [PosDef.Pos.compare_cont Eq ?a ?b] =>
        change (PosDef.Pos.compare_cont Eq a b) with (Pos.compare a b);
        destruct (Pos.compare_spec a b)
    end.

Ltac compare_cases :=
  cbn [SFcompare];
  repeat match goal with s : bool |- _ => destruct s end;
  try discriminate; try reflexivity;
  order_cases; cbn [CompOpp]; intros; try discriminate; try reflexivity; lia.

(** * Facts *)

(** ** Binary64 order and product *)



Lemma SFcompare_lt_trans (x y z : spec_float) :
  SFcompare x y = Some Lt -> SFcompare y z = Some Lt -> SFcompare x z = Some Lt.
Proof.
  destruct x as [sx|sx| |sx mx ex], y as [sy|sy| |sy my ey],
           z as [sz|sz| |sz mz ez]; compare_cases.
Qed.

Lemma SFltb_irrefl (x : spec_float) : SFltb x x = false.
Proof. unfold SFltb. destruct x as [sx|sx| |sx mx ex]; compare_cases. Qed.

Lemma SFleb_not_gt (x y : spec_float) : SFleb x y = true -> SFltb y x = false.
Proof.
  unfold SFleb, SFltb.
  destruct x as [sx|sx| |sx mx ex], y as [sy|sy| |sy my ey]; compare_cases.
Qed.

Lemma f64_gt_trans (x y z : float) :
  F64.gt x y = true -> F64.gt y z = true -> F64.gt x z = true.
Proof.
  unfold F64.gt. rewrite !ltb_spec. unfold SFltb. intros Hxy Hyz.
  destruct (SFcompare (Prim2SF z) (Prim2SF y)) as [[]|] eqn:E1; try discriminate.
  destruct (SFcompare (Prim2SF y) (Prim2SF x)) as [[]|] eqn:E2; try discriminate.
  now rewrite (SFcompare_lt_trans _ _ _ E1 E2).
Qed.

Lemma f64_gt_irrefl (x : float) : F64.gt x x = false.
Proof. unfold F64.gt. rewrite ltb_spec. apply SFltb_irrefl. Qed.

(** [x <= y] excludes [x > y]. *)
Lemma f64_leb_not_gt (x y : float) : PrimFloat.leb x y = true -> F64.gt x y = false.
Proof. unfold F64.gt. rewrite leb_spec, ltb_spec. apply SFleb_not_gt. Qed.

(** Nothing that fails to exceed [y] exceeds an [x] above [y]. *)
Lemma f64_not_gt_above (w x y : float) :
  F64.gt w y = false -> F64.gt x y = true -> F64.gt w x = false.
Proof.
  intros Hwy Hxy. destruct (F64.gt w x) eqn:E; [|reflexivity].
  now rewrite (f64_gt_trans _ _ _ E Hxy) in Hwy.
Qed.

Lemma f64_gt_asym (x y : float) : F64.gt x y = true -> F64.gt y x = false.
Proof.
  intros Hxy. destruct (F64.gt y x) eqn:E; [|reflexivity].
  pose proof (f64_gt_trans _ _ _ Hxy E) as H. now rewrite f64_gt_irrefl in H.
Qed.

(** ** The loop of [cosineSimilarity] *)


(** On vectors of one length the loop computes the sum of squares of each. *)
Lemma cosineLoop_sums (a : list float) : forall (b : list float) (d n1 n2 : float),
  length a = length b ->
  snd (fst (cosineLoop a b (d, n1, n2))) =
    fold_left (fun acc x => PrimFloat.add acc (PrimFloat.mul x x)) a n1 /\
  snd (cosineLoop a b (d, n1, n2)) =
    fold_left (fun acc x => PrimFloat.add acc (PrimFloat.mul x x)) b n2.
Proof.
  induction a as [|x a IH]; intros [|y b] d n1 n2 Hlen; try discriminate.
  - split; reflexivity.
  - cbn [cosineLoop tail fold_left]. apply IH. now injection Hlen.
Qed.

(** The branch taken, in terms of the two norms. *)
Lemma cosineBranch_norms (a b : list float) :
  length a = length b ->
  cosineBranch a b =
    if F64.strict_eq (norm a) 0%float || F64.strict_eq (norm b) 0%float then ZeroNorm
    else Divide (fst (fst (cosineLoop a b (0%float, 0%float, 0%float)))) (norm a) (norm b).
Proof.
  intros Hlen. unfold cosineBranch, norm, sumSquares.
  destruct (cosineLoop_sums a b 0%float 0%float 0%float Hlen) as [H1 H2].
  destruct (cosineLoop a b (0%float, 0%float, 0%float)) as [[d n1] n2].
  cbn [fst snd] in *. now subst.
Qed.

Lemma sumSquares_zero (v : list float) : Forall isZero v -> sumSquares v = 0%float.
Proof.
  unfold sumSquares. induction 1 as [|x v [Hx|Hx] _ IH]; [reflexivity| |];
    subst x; cbn [fold_left]; exact IH.
Qed.

Lemma norm_zero (v : list float) : Forall isZero v -> norm v = 0%float.
Proof. intros H. unfold norm. now rewrite (sumSquares_zero v H). Qed.

(** ** One as a quotient *)











(** ** Properties of [cosineSimilarity] *)




(** C9. On vectors of one length, when either norm is zero (in particular when
    either vector is all zeros) [cosineSimilarity] returns [0] through the
    guard, and the division is reached only with both norms non-zero. *)
Theorem cosineSimilarity_zero_norm_guard (a b : list float) :
  length a = length b ->
  (F64.strict_eq (norm a) 0%float = true \/ F64.strict_eq (norm b) 0%float = true \/
   Forall isZero a \/ Forall isZero b ->
   cosineBranch a b = ZeroNorm /\ cosineSimilarity a b = 0%float) /\
  (forall d n1 n2, cosineBranch a b = Divide d n1 n2 ->
     n1 = norm a /\ n2 = norm b /\
     F64.strict_eq n1 0%float = false /\ F64.strict_eq n2 0%float = false /\
     cosineSimilarity a b = PrimFloat.div d (PrimFloat.mul n1 n2)).
Proof.
  intros Hlen. pose proof (cosineBranch_norms a b Hlen) as Hbr. split.
  - intros Hzero.
    assert (F64.strict_eq (norm a) 0%float || F64.strict_eq (norm b) 0%float = true)
      as Hguard.
    { apply orb_true_iff.
      destruct Hzero as [H|[H|[H|H]]]; [now left | now right | left | right];
        now rewrite (norm_zero _ H). }
    rewrite Hguard in Hbr. unfold cosineSimilarity. now rewrite Hbr.
  - intros d n1 n2 Hdiv. unfold cosineSimilarity. rewrite Hdiv.
    rewrite Hbr in Hdiv.
    destruct (F64.strict_eq (norm a) 0%float) eqn:Ea; [discriminate|].
    destruct (F64.strict_eq (norm b) 0%float) eqn:Eb; [discriminate|].
    cbn [orb] in Hdiv. injection Hdiv as _ <- <-. auto.
Qed.

Lemma cosineSimilarity_zero_norm_guard_witness :
  cosineBranch [1; 2]%float [0; (-0)]%float = ZeroNorm /\
  cosineSimilarity [1; 2]%float [0; (-0)]%float = 0%float.
Proof.
  apply (proj1 (cosineSimilarity_zero_norm_guard [1; 2]%float [0; (-0)]%float eq_refl)).
  right. right. right.
  constructor; [left; reflexivity|]. constructor; [right; reflexivity|]. constructor.
Defined.

(** ** The JS [Map] *)

Lemma jsmap_get_set_eq (k : string) (v : Group) (m : JsMap.t) :
  JsMap.get k (JsMap.set k v m) = Some v.
Proof.
  induction m as [|[k' v'] m IH]; cbn [JsMap.set JsMap.get].
  - now rewrite String.eqb_refl.
  - destruct (String.eqb k' k) eqn:E; cbn [JsMap.get]; now rewrite E.
Qed.

Lemma jsmap_get_set_ne (k k' : string) (v : Group) (m : JsMap.t) :
  k <> k' -> JsMap.get k' (JsMap.set k v m) = JsMap.get k' m.
Proof.
  intros Hne. induction m as [|[k0 v0] m IH]; cbn [JsMap.set JsMap.get].
  - destruct (String.eqb k k') eqn:E; [|reflexivity].
    apply String.eqb_eq in E. contradiction.
  - destruct (String.eqb k0 k) eqn:E; cbn [JsMap.get].
    + apply String.eqb_eq in E. subst k0.
      destruct (String.eqb k k') eqn:E'; [|reflexivity].
      apply String.eqb_eq in E'. contradiction.
    + now rewrite IH.
Qed.

Lemma jsmap_keys_set_present (k : string) (v g : Group) (m : JsMap.t) :
  JsMap.get k m = Some g -> JsMap.keys (JsMap.set k v m) = JsMap.keys m.
Proof.
  induction m as [|[k' v'] m IH]; cbn [JsMap.set JsMap.get]; [discriminate|].
  destruct (String.eqb k' k) eqn:E; intros H; [reflexivity|].
  unfold JsMap.keys in *. cbn [List.map fst]. now rewrite IH.
Qed.

Lemma jsmap_set_absent (k : string) (v : Group) (m : JsMap.t) :
  JsMap.get k m = None -> JsMap.set k v m = m ++ [(k, v)].
Proof.
  induction m as [|[k' v'] m IH]; cbn [JsMap.set JsMap.get]; [reflexivity|].
  destruct (String.eqb k' k) eqn:E; [discriminate|].
  intros H. now rewrite IH.
Qed.

Lemma jsmap_get_In (k : string) (g : Group) (m : JsMap.t) :
  JsMap.get k m = Some g -> In (k, g) m.
Proof.
  induction m as [|[k' v'] m IH]; cbn [JsMap.get]; [discriminate|].
  destruct (String.eqb k' k) eqn:E; intros H.
  - apply String.eqb_eq in E. injection H as ->. subst. now left.
  - right. now apply IH.
Qed.

Lemma jsmap_get_None_keys (k : string) (m : JsMap.t) :
  JsMap.get k m = None <-> ~ In k (JsMap.keys m).
Proof.
  induction m as [|[k' v'] m IH]; cbn [JsMap.get JsMap.keys List.map fst In].
  - tauto.
  - destruct (String.eqb k' k) eqn:E.
    + apply String.eqb_eq in E. split; [discriminate|]. intros H. exfalso. auto.
    + apply String.eqb_neq in E. fold (JsMap.keys m). rewrite IH. tauto.
Qed.

Lemma jsmap_In_get (k : string) (g : Group) (m : JsMap.t) :
  List.NoDup (JsMap.keys m) -> In (k, g) m -> JsMap.get k m = Some g.
Proof.
  induction m as [|[k' v'] m IH]; cbn [JsMap.get JsMap.keys List.map fst];
    [contradiction|].
  intros Hnd [Heq|Hin].
  - injection Heq as -> ->. now rewrite String.eqb_refl.
  - inversion Hnd as [|? ? Hnotin Hnd']; subst.
    destruct (String.eqb k' k) eqn:E.
    + apply String.eqb_eq in E. subst k'. exfalso. apply Hnotin.
      change k with (fst (k, g)). now apply in_map.
    + now apply IH.
Qed.


(** ** [matchFace] *)

(** The loop either keeps its starting pair, nothing being above the starting
    similarity, or ends on an entry above it with the greatest similarity. *)
Lemma matchLoop_spec (emb : list float) (entries : JsMap.t) :
  forall (bestMatch : option string) (bestSimilarity : float),
    (matchLoop emb entries bestMatch bestSimilarity = (bestMatch, bestSimilarity) /\
     noneAbove emb bestSimilarity entries) \/
    (exists id g,
        In (id, g) entries /\
        matchLoop emb entries bestMatch bestSimilarity =
          (Some id, cosineSimilarity emb (referenceEmbedding g)) /\
        F64.gt (cosineSimilarity emb (referenceEmbedding g)) bestSimilarity = true /\
        noneAbove emb (cosineSimilarity emb (referenceEmbedding g)) entries).
Proof.
  induction entries as [|[id g] entries IH]; intros bm bs; cbn [matchLoop].
  - left. split; [reflexivity|]. intros ? ? [].
  - destruct (F64.gt (cosineSimilarity emb (referenceEmbedding g)) bs) eqn:Egt.
    + right.
      destruct (IH (Some id) (cosineSimilarity emb (referenceEmbedding g)))
        as [[Heq Hnone]|(id' & g' & Hin & Heq & Hgt & Hnone)].
      * exists id, g. repeat split; [now left|exact Heq|exact Egt|].
        intros id' g' [H|H]; [injection H as <- <-; apply f64_gt_irrefl|].
        exact (Hnone _ _ H).
      * exists id', g'. repeat split; [now right|exact Heq| |].
        -- exact (f64_gt_trans _ _ _ Hgt Egt).
        -- intros id0 g0 [H|H]; [injection H as <- <-; now apply f64_gt_asym|].
           exact (Hnone _ _ H).
    + destruct (IH bm bs) as [[Heq Hnone]|(id' & g' & Hin & Heq & Hgt & Hnone)].
      * left. split; [exact Heq|].
        intros id' g' [H|H]; [injection H as <- <-; exact Egt|].
        exact (Hnone _ _ H).
      * right. exists id', g'. repeat split; [now right|exact Heq|exact Hgt|].
        intros id0 g0 [H|H];
          [injection H as <- <-; exact (f64_not_gt_above _ _ _ Egt Hgt)|].
        exact (Hnone _ _ H).
Qed.

Lemma matchFace_none (emb : list float) (threshold : float) (fg : JsMap.t) :
  noneAbove emb threshold fg -> matchFace emb threshold fg = None.
Proof.
  intros Hnone. unfold matchFace.
  destruct (matchLoop_spec emb fg None threshold)
    as [[Heq _]|(id & g & Hin & _ & Hgt & _)].
  - now rewrite Heq.
  - now rewrite (Hnone _ _ Hin) in Hgt.
Qed.


(** [matchFace] answers from the map it is given and returns a present key. *)
Lemma matchFace_present (emb : list float) (threshold : float) (fg : JsMap.t)
    (id : string) (sim : float) :
  matchFace emb threshold fg = Some (id, sim) -> exists g, In (id, g) fg.
Proof.
  unfold matchFace.
  destruct (matchLoop_spec emb fg None threshold)
    as [[Heq _]|(id' & g & Hin & Heq & _ & _)]; rewrite Heq; [discriminate|].
  destruct (truthy id'); [|discriminate].
  intros H. injection H as <- _. now exists g.
Qed.

(** ** One face of [processImage] *)

Lemma includes_In (name : string) (l : list string) :
  includes name l = true <-> In name l.
Proof.
  unfold includes. rewrite existsb_exists. split.
  - intros (x & Hin & Heq). apply String.eqb_eq in Heq. now subst.
  - intros Hin. exists name. split; [exact Hin | apply String.eqb_refl].
Qed.


(** The step taken when [matchFace] answers [gid] for a key that is present. *)
Lemma assignFace_match (env : Env) (name : string) (st : Store) (face : Face)
    (gid : string) (sim : float) (best : Group) :
  matchFace (embedding face) defaultThreshold (faceGroups st) = Some (gid, sim) ->
  JsMap.get gid (faceGroups st) = Some best ->
  assignFace env name st face =
    (withGroups
       (if includes name (images best) then faceGroups st
        else JsMap.set gid
               (mkGroup (referenceEmbedding best) (images best ++ [name]))
               (faceGroups st)) st,
     mkGroupRef gid sim).
Proof.
  intros Hmatch Hget. unfold assignFace, JsMap.has. rewrite Hmatch, Hget, Hget.
  now destruct (includes name (images best)).
Qed.

(** The step taken when [matchFace] answers [null]. *)
Lemma assignFace_no_match (env : Env) (name : string) (st : Store) (face : Face) :
  matchFace (embedding face) defaultThreshold (faceGroups st) = None ->
  assignFace env name st face =
    (mkStore
       (JsMap.set (generateId env (draws st)) (mkGroup (embedding face) [name])
          (faceGroups st))
       (faceFiles st) (groupsFile st) (S (draws st)) (trace st),
     mkGroupRef (generateId env (draws st)) 1%float).
Proof. intros Hmatch. unfold assignFace. now rewrite Hmatch. Qed.



(** C2, as the code has it. A face whose similarity to every cluster reference
    is at most 0.6 (also when there is no cluster) is stored under the id
    [face_<Date.now()>_<random>] with its own embedding as reference and
    exactly the file name as images, and the emitted entry has that id and
    similarity 1.0. The code does not look the id up first: when it is not
    yet a key the cluster is new and goes last in the map; when it is already
    a key the cluster stored there is replaced in place. *)
Theorem assignFace_new_cluster (env : Env) (name : string) (st : Store) (face : Face) :
  (forall id g, In (id, g) (faceGroups st) ->
     PrimFloat.leb (cosineSimilarity (embedding face) (referenceEmbedding g))
       defaultThreshold = true) ->
  let st' := fst (assignFace env name st face) in
  let entry := snd (assignFace env name st face) in
  groupId entry = generateId env (draws st) /\
  similarity entry = 1%float /\
  JsMap.get (groupId entry) (faceGroups st') = Some (mkGroup (embedding face) [name]) /\
  (forall id, id <> groupId entry ->
     JsMap.get id (faceGroups st') = JsMap.get id (faceGroups st)) /\
  draws st' = S (draws st) /\
  (JsMap.get (groupId entry) (faceGroups st) = None ->
   faceGroups st' = faceGroups st ++ [(groupId entry, mkGroup (embedding face) [name])]) /\
  (forall old, JsMap.get (groupId entry) (faceGroups st) = Some old ->
   JsMap.keys (faceGroups st') = JsMap.keys (faceGroups st)).
Proof.
  intros Hle. cbv zeta.
  rewrite (assignFace_no_match env name st face).
  - cbn [fst snd groupId similarity faceGroups draws]. repeat split.
    + apply jsmap_get_set_eq.
    + intros id Hne. apply jsmap_get_set_ne. congruence.
    + apply jsmap_set_absent.
    + intros old Hold. exact (jsmap_keys_set_present _ _ _ _ Hold).
  - apply matchFace_none. intros id g Hin. apply f64_leb_not_gt. exact (Hle id g Hin).
Qed.

Lemma assignFace_new_cluster_witness :
  faceGroups (fst (assignFace tickingEnv "y.jpg" oneClusterStore
                     (mkFace [0; 1]%float sampleBox))) =
    faceGroups oneClusterStore ++
      [("face_1700000000000_k3x9q0zab"%string, mkGroup [0; 1]%float ["y.jpg"%string])] /\
  similarity (snd (assignFace tickingEnv "y.jpg" oneClusterStore
                     (mkFace [0; 1]%float sampleBox))) = 1%float.
Proof.
  destruct (assignFace_new_cluster tickingEnv "y.jpg" oneClusterStore
              (mkFace [0; 1]%float sampleBox)) as (Hid & Hsim & _ & _ & _ & Hnew & _).
  - intros id g Hin. vm_compute in Hin. destruct Hin as [H|[]].
    injection H as _ <-. vm_compute. reflexivity.
  - split; [|exact Hsim]. rewrite Hnew.
    + rewrite Hid. vm_compute. reflexivity.
    + rewrite Hid. vm_compute. reflexivity.
Defined.

(** C2 as stated fails when the generated id is already a key: the second
    unmatched face of [two.jpg] gets the id of the first, no cluster is added
    and the first cluster's reference embedding is replaced. *)
Lemma assignFace_id_collision :
  faceGroups (fst (assignFace stalledEnv "two.jpg" emptyStore
                     (mkFace [1; 0]%float sampleBox))) =
    [("face_1700000000000_k3x9q0zab"%string, mkGroup [1; 0]%float ["two.jpg"%string])] /\
  PrimFloat.leb (cosineSimilarity [0; 1]%float [1; 0]%float) defaultThreshold = true /\
  JsMap.get
    (groupId (snd (assignFace stalledEnv "two.jpg"
                     (fst (assignFace stalledEnv "two.jpg" emptyStore
                             (mkFace [1; 0]%float sampleBox)))
                     (mkFace [0; 1]%float sampleBox))))
    (faceGroups (fst (assignFace stalledEnv "two.jpg" emptyStore
                        (mkFace [1; 0]%float sampleBox)))) =
    Some (mkGroup [1; 0]%float ["two.jpg"%string]) /\
  faceGroups (snd (processImage stalledEnv "two.jpg" emptyStore)) =
    [("face_1700000000000_k3x9q0zab"%string, mkGroup [0; 1]%float ["two.jpg"%string])].
Proof. repeat split; vm_compute; reflexivity. Qed.

(** ** [processImage] *)

(** A file name whose image does not exist is refused before anything else. *)
Lemma processImage_missing (env : Env) (name : string) (st : Store) :
  existsSync env (imagePath env name) = false ->
  processImage env name st = (Thrown ("Image not found: " +:+ imagePath env name), st).
Proof. intros Hmissing. unfold processImage. now rewrite Hmissing. Qed.

(** A record file that is present short-circuits the call. *)
Lemma processImage_hit (env : Env) (name : string) (st : Store)
    (cached : ImageFaceRecord) :
  existsSync env (imagePath env name) = true ->
  faceFiles st !! faceDataKey name = Some cached ->
  processImage env name st = (Returned cached, st).
Proof. intros Hexists Hcached. unfold processImage. now rewrite Hexists, Hcached. Qed.


(** C3. When the image of a file name is there and the record file of the
    name is present, [processImage] returns the record of that file and
    leaves the whole store as it is: the map of clusters, every file and the
    trace, so there is no detector call, no cluster change and no write. *)
Theorem processImage_idempotent (env : Env) (name : string) (st : Store)
    (cached : ImageFaceRecord) :
  existsSync env (imagePath env name) = true ->
  faceFiles st !! faceDataKey name = Some cached ->
  fst (processImage env name st) = Returned cached /\
  snd (processImage env name st) = st /\
  faceGroups (snd (processImage env name st)) = faceGroups st /\
  groupsFile (snd (processImage env name st)) = groupsFile st /\
  trace (snd (processImage env name st)) = trace st.
Proof.
  intros Hexists Hcached.
  rewrite (processImage_hit env name st cached Hexists Hcached).
  repeat split; reflexivity.
Qed.

Lemma processImage_idempotent_witness :
  fst (processImage tickingEnv "two.jpg"
         (snd (processImage tickingEnv "two.jpg" emptyStore))) =
    fst (processImage tickingEnv "two.jpg" emptyStore) /\
  snd (processImage tickingEnv "two.jpg"
         (snd (processImage tickingEnv "two.jpg" emptyStore))) =
    snd (processImage tickingEnv "two.jpg" emptyStore).
Proof.
  destruct (processImage tickingEnv "two.jpg" emptyStore) as [outcome st1] eqn:Hfirst.
  vm_compute in Hfirst. injection Hfirst as <- <-.
  refine (let H := processImage_idempotent tickingEnv "two.jpg" _ _ _ _ in
          conj (proj1 H) (proj1 (proj2 H))).
  - reflexivity.
  - vm_compute. reflexivity.
Defined.

(** C6, as the code has it. For a file name without a record file whose
    image has no face, [processImage] writes and returns the record with
    empty [faces] and [groups]; the map of clusters, [face-groups.json] and
    the count of ids stay as they are, and the only effects are the detector
    call and the write of the record. This is for a name whose record file
    is not [face-groups.json] and is within the length of a file name: for
    such a name the record files are apart from [face-groups.json] and the
    write does not throw for the name, which is how the model has them. *)
Theorem processImage_no_faces (env : Env) (name : string) (st : Store) :
  faceDataKey name <> groupsFileName ->
  String.length (faceDataKey name) <= nameMax ->
  faceFiles st !! faceDataKey name = None ->
  imageAt env (imagePath env name) = Some (Returned []) ->
  let result := mkRecord name [] [] in
  let st' := snd (processImage env name st) in
  fst (processImage env name st) = Returned result /\
  faceFiles st' = <[faceDataKey name := result]> (faceFiles st) /\
  faceGroups st' = faceGroups st /\
  groupsFile st' = groupsFile st /\
  draws st' = draws st /\
  trace st' = trace st ++ [Detect (imagePath env name); WriteRecord (faceDataKey name) result].
Proof.
  intros _ _ Hnone Himage. cbv zeta. unfold processImage, existsSync, detectFaces.
  rewrite Himage, Hnone.
  cbn [negb length Nat.eqb fst snd writeRecord logEvent faceFiles faceGroups groupsFile draws trace].
  rewrite <- app_assoc. repeat split; reflexivity.
Qed.

Lemma processImage_no_faces_witness :
  fst (processImage tickingEnv "empty.jpg" oneClusterStore) =
    Returned (mkRecord "empty.jpg" [] []) /\
  faceGroups (snd (processImage tickingEnv "empty.jpg" oneClusterStore)) =
    faceGroups oneClusterStore /\
  groupsFile (snd (processImage tickingEnv "empty.jpg" oneClusterStore)) =
    groupsFile oneClusterStore.
Proof.
  destruct (processImage_no_faces tickingEnv "empty.jpg" oneClusterStore)
    as (Hres & _ & Hfg & Hfile & _);
    [discriminate|vm_compute; lia|reflexivity|reflexivity|].
  auto.
Defined.

(** C6 as stated fails for the file name [face-groups], whose record file
    is [face-groups.json], the file of the clusters: on an image of that name
    without a face, with no file written yet, [processImage] writes the empty
    record to [face-groups.json]. *)
Lemma processImage_record_into_groups_file :
  faceDataKey "face-groups" = groupsFileName /\
  faceFiles emptyStore !! faceDataKey "face-groups" = None /\
  imageAt bareNameEnv (imagePath bareNameEnv "face-groups") = Some (Returned []) /\
  fst (processImage bareNameEnv "face-groups" emptyStore) =
    Returned (mkRecord "face-groups" [] []) /\
  trace (snd (processImage bareNameEnv "face-groups" emptyStore)) =
    [Detect "/media/face-groups";
     WriteRecord groupsFileName (mkRecord "face-groups" [] [])].
Proof. repeat split; vm_compute; reflexivity. Qed.



(** ** [processImages] *)

Lemma progressCalls_app (l1 l2 : list Event) :
  progressCalls (l1 ++ l2) = progressCalls l1 ++ progressCalls l2.
Proof. apply flat_map_app. Qed.

Lemma assignFace_trace (env : Env) (name : string) (st : Store) (face : Face) :
  trace (fst (assignFace env name st face)) = trace st.
Proof.
  unfold assignFace.
  destruct (matchFace (embedding face) defaultThreshold (faceGroups st)) as [[gid sim]|];
    reflexivity.
Qed.

Lemma assignFaces_trace (env : Env) (name : string) (detected : list Face) :
  forall st emitted, trace (fst (assignFaces env name detected st emitted)) = trace st.
Proof.
  induction detected as [|face rest IH]; intros st emitted; cbn [assignFaces fst].
  - reflexivity.
  - pose proof (assignFace_trace env name st face) as H.
    destruct (assignFace env name st face) as [st' entry]. rewrite IH. exact H.
Qed.

(** [processImage] itself never calls the progress callback. *)
Lemma processImage_progressCalls (env : Env) (name : string) (st : Store) :
  progressCalls (trace (snd (processImage env name st))) = progressCalls (trace st).
Proof.
  unfold processImage.
  destruct (existsSync env (imagePath env name)); cbn [negb snd]; [|reflexivity].
  destruct (faceFiles st !! faceDataKey name); [reflexivity|].
  destruct (detectFaces env (imagePath env name)) as [detected|msg]; cbn [snd].
  - destruct (Nat.eqb (length detected) 0); cbn [snd].
    + cbn [writeRecord logEvent trace]. rewrite !progressCalls_app. cbn.
      now rewrite !app_nil_r.
    + pose proof (assignFaces_trace env name detected
                    (logEvent (Detect (imagePath env name)) st) []) as Htr.
      destruct (assignFaces env name detected _ []) as [st2 emitted].
      cbn [fst] in Htr. cbn [snd saveFaceGroups writeRecord trace]. rewrite Htr.
      cbn [logEvent trace]. rewrite !progressCalls_app. cbn. now rewrite !app_nil_r.
  - cbn [logEvent trace]. rewrite progressCalls_app. cbn. now rewrite app_nil_r.
Qed.

(** The accumulated results only ever grow at the end. *)
Lemma processImagesFrom_acc (env : Env) (cb : option Callback) (total : nat)
    (filenames : list string) :
  forall (i : nat) (st : Store) (acc : list BatchEntry),
    processImagesFrom env cb total i filenames st acc =
      (acc ++ fst (processImagesFrom env cb total i filenames st []),
       snd (processImagesFrom env cb total i filenames st [])).
Proof.
  induction filenames as [|name rest IH]; intros i st acc; cbn [processImagesFrom].
  - cbn [fst snd]. now rewrite app_nil_r.
  - destruct (processImage env name st) as [[result|message] st1].
    + destruct cb as [callback|].
      * destruct (callback (i + 1) total name) as [thrown|].
        -- rewrite IH. rewrite (IH _ _ (([] ++ _) ++ _)). cbn [fst snd app].
           now rewrite <- !app_assoc.
        -- rewrite IH. rewrite (IH _ _ ([] ++ _)). cbn [fst snd app].
           now rewrite <- !app_assoc.
      * rewrite IH. rewrite (IH _ _ ([] ++ _)). cbn [fst snd app].
        now rewrite <- !app_assoc.
    + rewrite IH. rewrite (IH _ _ ([] ++ _)). cbn [fst snd app].
      now rewrite <- !app_assoc.
Qed.

(** The loop over a concatenation is the loop over the second part, started
    where the loop over the first part ends. *)
Lemma processImagesFrom_app (env : Env) (cb : option Callback) (total : nat)
    (first second : list string) :
  forall (i : nat) (st : Store) (acc : list BatchEntry),
    processImagesFrom env cb total i (first ++ second) st acc =
      processImagesFrom env cb total (i + length first) second
        (snd (processImagesFrom env cb total i first st acc))
        (fst (processImagesFrom env cb total i first st acc)).
Proof.
  induction first as [|name rest IH]; intros i st acc; cbn [processImagesFrom app length].
  - cbn [fst snd]. now rewrite Nat.add_0_r.
  - replace (i + S (length rest)) with (S i + length rest) by lia.
    destruct (processImage env name st) as [[result|message] st1]; [|apply IH].
    destruct cb as [callback|]; [|apply IH].
    destruct (callback (i + 1) total name); apply IH.
Qed.

(** With a callback that returns, one file gives one entry: that of
    [processImage] on the file in the current store. *)
Lemma processImagesFrom_cons (env : Env) (cb : option Callback) (total i : nat)
    (name : string) (rest : list string) (st : Store) :
  returnsNormally cb ->
  exists st',
    processImagesFrom env cb total i (name :: rest) st [] =
      (entryOf name (fst (processImage env name st)) ::
         fst (processImagesFrom env cb total (S i) rest st' []),
       snd (processImagesFrom env cb total (S i) rest st' [])).
Proof.
  intros Hcb. cbn [processImagesFrom].
  destruct (processImage env name st) as [[result|message] st1]; cbn [fst snd entryOf].
  - destruct cb as [callback|].
    + rewrite (Hcb callback eq_refl). eexists.
      rewrite processImagesFrom_acc. reflexivity.
    + exists st1. rewrite processImagesFrom_acc. reflexivity.
  - exists st1. rewrite processImagesFrom_acc. reflexivity.
Qed.

Lemma processImagesFrom_length (env : Env) (cb : option Callback) (total : nat)
    (filenames : list string) :
  returnsNormally cb ->
  forall (i : nat) (st : Store),
    length (fst (processImagesFrom env cb total i filenames st [])) = length filenames.
Proof.
  intros Hcb. induction filenames as [|name rest IH]; intros i st; [reflexivity|].
  destruct (processImagesFrom_cons env cb total i name rest st Hcb) as (st' & Heq).
  rewrite Heq. cbn [fst length]. now rewrite IH.
Qed.

(** C5, as the code has it. With no callback, or one that returns from every
    call, [processImages] returns exactly one entry per file name, in the
    order of the input: the entry at position [i] is the record
    [processImage] returns for the [i]-th file, or the file name with the
    message of the error it throws, [processImage] being run in the store the
    files before it have left. A failure is an entry like any other and the
    loop goes on. (The [try] block also holds the call of the callback: see
    [processImages_two_entries_when_callback_throws].) *)
Theorem processImages_one_entry_per_file (env : Env) (filenames : list string)
    (progressCallback : option Callback) (st : Store) :
  returnsNormally progressCallback ->
  length (fst (processImages env filenames progressCallback st)) = length filenames /\
  forall (i : nat) (name : string),
    filenames !! i = Some name ->
    fst (processImages env filenames progressCallback st) !! i =
      Some (entryOf name
              (fst (processImage env name
                      (storeBefore env progressCallback filenames i st)))).
Proof.
  intros Hcb. unfold processImages, storeBefore, storeBeforeOf. split.
  - now apply processImagesFrom_length.
  - intros i name Hi.
    pose proof (take_drop_middle filenames i name Hi) as Hsplit.
    rewrite <- Hsplit at 2.
    rewrite processImagesFrom_app, processImagesFrom_acc. cbn [fst].
    destruct (processImagesFrom_cons env progressCallback (length filenames)
                (0 + length (take i filenames)) name (drop (S i) filenames)
                (snd (processImagesFrom env progressCallback (length filenames) 0
                        (take i filenames) st [])) Hcb) as (st' & Heq).
    rewrite Heq. cbn [fst].
    apply list_lookup_middle.
    rewrite processImagesFrom_length by exact Hcb.
    rewrite length_take. apply lookup_lt_Some in Hi. lia.
Qed.

Lemma logProgress_returns : returnsNormally (Some logProgress).
Proof. intros callback H. injection H as <-. reflexivity. Qed.

Lemma processImages_one_entry_per_file_witness :
  length (fst (processImages tickingEnv ["a/b.jpg"; "missing.jpg"; "a_b.jpg"]%string
                 (Some logProgress) emptyStore)) = 3 /\
  fst (processImages tickingEnv ["a/b.jpg"; "missing.jpg"; "a_b.jpg"]%string
         (Some logProgress) emptyStore) !! 1 =
    Some (Failed "missing.jpg" "Image not found: /media/missing.jpg").
Proof.
  destruct (processImages_one_entry_per_file tickingEnv
              ["a/b.jpg"; "missing.jpg"; "a_b.jpg"]%string (Some logProgress) emptyStore
              logProgress_returns) as [Hlen Hentry].
  split; [exact Hlen|].
  rewrite (Hentry 1 "missing.jpg"%string eq_refl). vm_compute. reflexivity.
Defined.

(** C5 as stated fails when the callback throws: the record of [y.jpg] has
    been pushed already, and the [catch] block pushes an error entry for the
    same file. *)
Lemma processImages_two_entries_when_callback_throws :
  length (fst (processImages tickingEnv ["y.jpg"]%string (Some failingCallback)
                 emptyStore)) = 2 /\
  fst (processImages tickingEnv ["y.jpg"]%string (Some failingCallback) emptyStore) !! 1 =
    Some (Failed "y.jpg" "write EPIPE").
Proof. split; vm_compute; reflexivity. Qed.

Lemma omap_ext_in {A B : Type} (f g : A -> option B) (l : list A) :
  (forall x, In x l -> f x = g x) -> omap f l = omap g l.
Proof.
  induction l as [|x l IH]; intros Hext; [reflexivity|]. cbn [omap list_omap].
  rewrite (Hext x) by now left.
  rewrite IH by (intros y Hy; apply Hext; now right). reflexivity.
Qed.

(** The last step of the loop calls the callback exactly when [processImage]
    returned, whether or not the callback then throws. *)
Lemma processImagesFrom_last_call (env : Env) (callback : Callback) (total i : nat)
    (name : string) (st : Store) (acc : list BatchEntry) :
  progressCalls
    (trace (snd (processImagesFrom env (Some callback) total i [name] st acc))) =
    progressCalls (trace st) ++
      match fst (processImage env name st) with
      | Returned _ => [(i + 1, total, name)]
      | Thrown _ => []
      end.
Proof.
  cbn [processImagesFrom].
  pose proof (processImage_progressCalls env name st) as Htr.
  destruct (processImage env name st) as [[result|message] st1]; cbn [fst snd] in *.
  - destruct (callback (i + 1) total name); cbn [snd logEvent trace];
      rewrite progressCalls_app, Htr; reflexivity.
  - now rewrite Htr, app_nil_r.
Qed.

Lemma processImagesFrom_calls (env : Env) (callback : Callback) (total : nat)
    (filenames : list string) (st : Store) :
  progressCalls
    (trace (snd (processImagesFrom env (Some callback) total 0 filenames st []))) =
    progressCalls (trace st) ++
      omap (callAt env (Some callback) total filenames st) (seq 0 (length filenames)).
Proof.
  induction filenames as [|name before IH] using rev_ind.
  - cbn. now rewrite app_nil_r.
  - rewrite processImagesFrom_app, processImagesFrom_last_call, IH.
    rewrite length_app, seq_app, omap_app, <- app_assoc. cbn [length seq Nat.add].
    f_equal. f_equal.
    + apply omap_ext_in. intros i Hi. apply in_seq in Hi. unfold callAt, storeBeforeOf.
      rewrite lookup_app_l by lia. rewrite take_app_le by lia. reflexivity.
    + cbn [omap list_omap]. unfold callAt, storeBeforeOf.
      rewrite list_lookup_middle by reflexivity. rewrite take_app_length.
      now destruct (fst (processImage env name _)).
Qed.

(** C4, as the code has it. A callback supplied to [processImages] is called
    exactly once for each file on which [processImage] returned, in the order
    of the input, with [(i + 1, total, filename)] for the file at position
    [i]; it is not called for a file on which [processImage] threw. *)
Theorem processImages_progress_on_success (env : Env) (filenames : list string)
    (callback : Callback) (st : Store) :
  progressCalls (trace (snd (processImages env filenames (Some callback) st))) =
    progressCalls (trace st) ++ expectedCalls env (Some callback) filenames st.
Proof. unfold processImages, expectedCalls. apply processImagesFrom_calls. Qed.

(** C4 as stated fails: in a batch of three whose second file is missing, the
    callback is called for the first and the third file only. *)
Lemma processImages_no_progress_on_failure :
  fst (processImages tickingEnv ["y.jpg"; "missing.jpg"; "empty.jpg"]%string
         (Some logProgress) emptyStore) !! 1 =
    Some (Failed "missing.jpg" "Image not found: /media/missing.jpg") /\
  progressCalls
    (trace (snd (processImages tickingEnv ["y.jpg"; "missing.jpg"; "empty.jpg"]%string
                   (Some logProgress) emptyStore))) =
    [(1, 3, "y.jpg"%string); (3, 3, "empty.jpg"%string)].
Proof. split; vm_compute; reflexivity. Qed.

(** ** Invariants of the store *)

Lemma jsmap_In_get_some (k : string) (g : Group) (m : JsMap.t) :
  In (k, g) m -> exists g', JsMap.get k m = Some g'.
Proof.
  induction m as [|[k' v'] m IH]; cbn [JsMap.get]; [contradiction|].
  intros [H|H]; destruct (String.eqb k' k) eqn:E; eauto.
  injection H as -> ->. now rewrite String.eqb_refl in E.
Qed.


Lemma referencesKept_refl (fg : JsMap.t) : referencesKept fg fg.
Proof. intros id g H. now exists g. Qed.

Lemma referencesKept_trans (fg1 fg2 fg3 : JsMap.t) :
  referencesKept fg1 fg2 -> referencesKept fg2 fg3 -> referencesKept fg1 fg3.
Proof.
  intros H12 H23 id g Hget.
  destruct (H12 id g Hget) as (g2 & Hget2 & Href2).
  destruct (H23 id g2 Hget2) as (g3 & Hget3 & Href3).
  exists g3. split; [exact Hget3|congruence].
Qed.

(** Replacing a cluster by one with the same reference keeps all references. *)
Lemma referencesKept_set_same_reference (k : string) (old new : Group) (fg : JsMap.t) :
  JsMap.get k fg = Some old ->
  referenceEmbedding new = referenceEmbedding old ->
  referencesKept fg (JsMap.set k new fg).
Proof.
  intros Hold Href id g Hget. destruct (String.eqb k id) eqn:E.
  - apply String.eqb_eq in E. subst id. exists new.
    split; [apply jsmap_get_set_eq|congruence].
  - apply String.eqb_neq in E. exists g. split; [|reflexivity].
    now rewrite jsmap_get_set_ne.
Qed.

(** Storing a cluster under a key that is not in the map keeps all
    references. *)
Lemma referencesKept_set_absent (k : string) (new : Group) (fg : JsMap.t) :
  JsMap.get k fg = None -> referencesKept fg (JsMap.set k new fg).
Proof.
  intros Hnone id g Hget. exists g. split; [|reflexivity].
  rewrite jsmap_get_set_ne; [exact Hget|]. congruence.
Qed.

(** The two shapes of the step for one face: an image added to a cluster that
    is in the map, or a cluster stored under a generated id. *)
Lemma assignFace_shape (env : Env) (name : string) (st : Store) (face : Face) :
  (exists gid sim best,
      JsMap.get gid (faceGroups st) = Some best /\
      assignFace env name st face =
        (withGroups
           (if includes name (images best) then faceGroups st
            else JsMap.set gid
                   (mkGroup (referenceEmbedding best) (images best ++ [name]))
                   (faceGroups st)) st,
         mkGroupRef gid sim)) \/
  assignFace env name st face =
    (mkStore
       (JsMap.set (generateId env (draws st)) (mkGroup (embedding face) [name])
          (faceGroups st))
       (faceFiles st) (groupsFile st) (S (draws st)) (trace st),
     mkGroupRef (generateId env (draws st)) 1%float).
Proof.
  destruct (matchFace (embedding face) defaultThreshold (faceGroups st))
    as [[gid sim]|] eqn:Hmatch.
  - left. destruct (matchFace_present _ _ _ _ _ Hmatch) as (g & Hin).
    destruct (jsmap_In_get_some gid g (faceGroups st) Hin) as (best & Hget).
    exists gid, sim, best. split; [exact Hget|].
    now apply assignFace_match.
  - right. now apply assignFace_no_match.
Qed.




Lemma assignFace_fresh (env : Env) (name : string) (st : Store) (face : Face) :
  FreshIds env st ->
  FreshIds env (fst (assignFace env name st face)) /\
  referencesKept (faceGroups st) (faceGroups (fst (assignFace env name st face))).
Proof.
  unfold FreshIds. intros [Hnew Hinj].
  destruct (assignFace_shape env name st face)
    as [(gid & sim & best & Hget & ->)| ->]; cbn [fst withGroups faceGroups draws].
  - destruct (includes name (images best)).
    + split; [split; assumption|apply referencesKept_refl].
    + split; [split; [|exact Hinj]|].
      * intros n Hn. rewrite jsmap_get_set_ne; [now apply Hnew|].
        intros ->. rewrite (Hnew n Hn) in Hget. discriminate.
      * now apply (referencesKept_set_same_reference gid best).
  - split; [split|].
    + intros n Hn. rewrite jsmap_get_set_ne; [apply Hnew; lia|].
      intros Heq. apply Hinj in Heq; lia.
    + intros n m Hn Hm. apply Hinj; lia.
    + apply referencesKept_set_absent. now apply Hnew.
Qed.


Lemma assignFaces_fresh (env : Env) (name : string) (detected : list Face) :
  forall st emitted,
    FreshIds env st ->
    FreshIds env (fst (assignFaces env name detected st emitted)) /\
    referencesKept (faceGroups st)
      (faceGroups (fst (assignFaces env name detected st emitted))).
Proof.
  induction detected as [|face rest IH]; intros st emitted Hfresh; cbn [assignFaces].
  - split; [exact Hfresh|apply referencesKept_refl].
  - pose proof (assignFace_fresh env name st face Hfresh) as [Hfresh' Hkept].
    destruct (assignFace env name st face) as [st' entry]. cbn [fst] in *.
    destruct (IH st' (emitted ++ [entry]) Hfresh') as [Hfresh'' Hkept'].
    split; [exact Hfresh''|]. exact (referencesKept_trans _ _ _ Hkept Hkept').
Qed.

(** A map that is well formed agrees with itself as a file. *)
Lemma MemoryInv_as_file (fg : JsMap.t) :
  MemoryInv fg ->
  imagesValid fg /\
  forall id g, In (id, g) fg ->
    exists g', JsMap.get id fg = Some g' /\ referenceEmbedding g' = referenceEmbedding g.
Proof.
  intros (Hnd & _ & Himg). split; [exact Himg|].
  intros id g Hin. exists g. split; [|reflexivity]. now apply jsmap_In_get.
Qed.


Lemma processImage_fresh (env : Env) (name : string) (st : Store) :
  FreshIds env st ->
  FreshIds env (snd (processImage env name st)) /\
  referencesKept (faceGroups st) (faceGroups (snd (processImage env name st))).
Proof.
  intros Hfresh. unfold processImage.
  destruct (existsSync env (imagePath env name)); cbn [negb snd];
    [|split; [exact Hfresh|apply referencesKept_refl]].
  destruct (faceFiles st !! faceDataKey name);
    [split; [exact Hfresh|apply referencesKept_refl]|].
  destruct (detectFaces env (imagePath env name)) as [detected|msg];
    [|split; [exact Hfresh|apply referencesKept_refl]].
  destruct (Nat.eqb (length detected) 0);
    [split; [exact Hfresh|apply referencesKept_refl]|].
  pose proof (assignFaces_fresh env name detected
                (logEvent (Detect (imagePath env name)) st) [] Hfresh) as Hstep.
  destruct (assignFaces env name detected _ []) as [st2 emitted]. exact Hstep.
Qed.





(** Loading a file whose keys are distinct into a map that has none of them
    appends the file. *)
Lemma loadFaceGroups_append (data : JsMap.t) : forall fg : JsMap.t,
  List.NoDup (JsMap.keys (fg ++ data)) ->
  fold_left (fun m entry => JsMap.set (fst entry) (snd entry) m) data fg = fg ++ data.
Proof.
  induction data as [|[k v] data IH]; intros fg Hnd; cbn [fold_left fst snd].
  - now rewrite app_nil_r.
  - assert (JsMap.get k fg = None) as Hnone.
    { apply jsmap_get_None_keys. unfold JsMap.keys in Hnd. rewrite map_app in Hnd.
      cbn [List.map fst] in Hnd. apply NoDup_remove_2 in Hnd.
      intros Hin. apply Hnd. apply in_or_app. now left. }
    rewrite (jsmap_set_absent k v fg Hnone), IH.
    + now rewrite <- app_assoc.
    + now rewrite <- app_assoc.
Qed.

(** The constructor establishes the invariant from a well-formed file, and
    from no file. *)
Lemma newService_StoreInv (files : gmap string ImageFaceRecord)
    (persisted : option JsMap.t) :
  (forall data, persisted = Some data -> MemoryInv data) ->
  StoreInv (newService files persisted) /\
  faceGroups (newService files persisted) =
    match persisted with Some data => data | None => [] end.
Proof.
  intros Hfile. unfold newService, loadFaceGroups. cbn [groupsFile faceGroups].
  destruct persisted as [data|]; cbn [withGroups faceGroups groupsFile].
  - pose proof (Hfile data eq_refl) as Hmem.
    rewrite (loadFaceGroups_append data []) by (cbn [app]; apply Hmem).
    cbn [app]. split; [|reflexivity]. split; [exact Hmem|].
    intros data' Hdata'. injection Hdata' as <-. now apply MemoryInv_as_file.
  - split; [|reflexivity]. split.
    + split; [constructor|split; intros ? ? []].
    + discriminate.
Qed.


(** *** The sample stores satisfy the hypotheses *)

Lemma string_length_app (a t : string) :
  String.length (a +:+ t) = String.length a + String.length t.
Proof. induction a as [|c a IH]; simpl; [reflexivity|now f_equal]. Qed.

Lemma string_app_inv_tail (t : string) : forall a b : string, a +:+ t = b +:+ t -> a = b.
Proof.
  induction a as [|c a IH]; intros [|c' b] H.
  - reflexivity.
  - apply (f_equal String.length) in H.
    rewrite !string_length_app in H. simpl in H. lia.
  - apply (f_equal String.length) in H.
    rewrite !string_length_app in H. simpl in H. lia.
  - simpl in H. injection H as -> H. now rewrite (IH b H).
Qed.

Lemma tickingEnv_ids_distinct (n m : nat) :
  generateId tickingEnv n = generateId tickingEnv m -> n = m.
Proof.
  unfold generateId, tickingEnv. cbn [dateNow randomSuffix]. intros H.
  apply (inj (String.app "face_")) in H.
  apply string_app_inv_tail in H. apply (inj pretty) in H. lia.
Qed.

Lemma oneClusterStore_inv : StoreInv oneClusterStore.
Proof.
  apply newService_StoreInv. intros data Hdata. injection Hdata as <-.
  split; [|split].
  - repeat constructor. intros [].
  - intros id g [H|[]]. injection H as <- _. discriminate.
  - intros id g [H|[]]. injection H as _ <-. split; [discriminate|].
    repeat constructor. intros [].
Qed.

Lemma oneClusterStore_fresh : FreshIds tickingEnv oneClusterStore.
Proof.
  split.
  - intros n _. reflexivity.
  - intros n m _ _. apply tickingEnv_ids_distinct.
Qed.



(** ** The two end-to-end scenarios of the specification *)

(** With one cluster [A] of reference [[1, 0]] and image [x.jpg], an image
    whose only face has embedding [[1, 0]] joins [A] with similarity 1.0, and
    no cluster is created. *)
Example scenario_join_existing_cluster :
  fst (processImage tickingEnv "y.jpg" oneClusterStore) =
    Returned (mkRecord "y.jpg" [mkFace [1; 0]%float sampleBox] [mkGroupRef "A" 1%float]) /\
  faceGroups (snd (processImage tickingEnv "y.jpg" oneClusterStore)) =
    [("A"%string, mkGroup [1; 0]%float ["x.jpg"; "y.jpg"]%string)].
Proof. split; vm_compute; reflexivity. Qed.

(** In an empty store, an image with one face creates exactly one cluster,
    which holds that image only, with similarity 1.0. *)
Example scenario_first_cluster :
  fst (processImage tickingEnv "y.jpg" emptyStore) =
    Returned (mkRecord "y.jpg" [mkFace [1; 0]%float sampleBox]
                [mkGroupRef "face_1700000000000_k3x9q0zab" 1%float]) /\
  faceGroups (snd (processImage tickingEnv "y.jpg" emptyStore)) =
    [("face_1700000000000_k3x9q0zab"%string, mkGroup [1; 0]%float ["y.jpg"%string])].
Proof. split; vm_compute; reflexivity. Qed.

(** * Further properties of the service *)

(** ** Queries *)

Lemma jsmap_set_same (k : string) (g : Group) (m : JsMap.t) :
  JsMap.get k m = Some g -> JsMap.set k g m = m.
Proof.
  induction m as [|[k' v'] m IH]; cbn [JsMap.set JsMap.get]; [discriminate|].
  destruct (String.eqb k' k) eqn:E; intros H.
  - now injection H as ->.
  - now rewrite IH.
Qed.

(** X1. In a well-formed store, [getFaceGroups] lists the clusters in the
    order of the map, each with its id, with the images [getGroupImages]
    returns for that id and with their number, which is at least one. *)
Theorem getFaceGroups_agrees_with_getGroupImages (st : Store) :
  MemoryInv (faceGroups st) ->
  List.map (fun entry => fst (fst entry)) (getFaceGroups st) = JsMap.keys (faceGroups st) /\
  forall id count imgs,
    In (id, count, imgs) (getFaceGroups st) ->
    getGroupImages id st = imgs /\ count = length imgs /\ 1 <= count.
Proof.
  intros (Hnd & _ & Himg). unfold getFaceGroups, getGroupImages, JsMap.keys. split.
  - rewrite List.map_map. reflexivity.
  - intros id count imgs Hin. apply in_map_iff in Hin.
    destruct Hin as ([k g] & Heq & Hin). cbn [fst snd] in Heq.
    injection Heq as <- <- <-.
    rewrite (jsmap_In_get k g (faceGroups st) Hnd Hin).
    destruct (Himg k g Hin) as [Hne _].
    repeat split. destruct (images g); [contradiction|cbn; lia].
Qed.

Lemma getFaceGroups_agrees_with_getGroupImages_witness :
  getGroupImages "A" oneClusterStore = ["x.jpg"%string] /\
  getFaceGroups oneClusterStore = [("A"%string, 1, ["x.jpg"%string])].
Proof.
  destruct (getFaceGroups_agrees_with_getGroupImages oneClusterStore) as [_ Hall].
  - apply oneClusterStore_inv.
  - split; [|reflexivity].
    exact (proj1 (Hall "A"%string 1 ["x.jpg"%string] (or_introl eq_refl))).
Defined.

(** X2. In a well-formed store, [getGroupImages] returns the empty list for
    the ids that are not in the map, and for no other id. *)
Theorem getGroupImages_empty_iff_unknown (st : Store) (gid : string) :
  MemoryInv (faceGroups st) ->
  (getGroupImages gid st = [] <-> JsMap.get gid (faceGroups st) = None).
Proof.
  intros (_ & _ & Himg). unfold getGroupImages.
  destruct (JsMap.get gid (faceGroups st)) as [g|] eqn:E.
  - destruct (Himg gid g (jsmap_get_In _ _ _ E)) as [Hne _].
    split; [intros H; contradiction|discriminate].
  - split; reflexivity.
Qed.

Lemma getGroupImages_empty_iff_unknown_witness :
  getGroupImages "face_0_unknown" oneClusterStore = [] /\
  getGroupImages "A" oneClusterStore <> [].
Proof.
  split.
  - apply (proj2 (getGroupImages_empty_iff_unknown oneClusterStore "face_0_unknown"
                    (proj1 oneClusterStore_inv))).
    reflexivity.
  - intros H.
    apply (proj1 (getGroupImages_empty_iff_unknown oneClusterStore "A"
                    (proj1 oneClusterStore_inv))) in H.
    discriminate.
Defined.

(** ** Persistence *)

Lemma loadFaceGroups_own_entries (m : JsMap.t) :
  List.NoDup (JsMap.keys m) ->
  forall part, incl part m ->
    fold_left (fun acc entry => JsMap.set (fst entry) (snd entry) acc) part m = m.
Proof.
  intros Hnd. induction part as [|[k v] part IH]; intros Hincl; cbn [fold_left fst snd].
  - reflexivity.
  - rewrite (jsmap_set_same k v m).
    + apply IH. intros e He. apply Hincl. now right.
    + apply jsmap_In_get; [exact Hnd|]. apply Hincl. now left.
Qed.

Lemma loadFaceGroups_lookup_fold (data : JsMap.t) :
  List.NoDup (JsMap.keys data) ->
  forall (fg : JsMap.t) (id : string),
    JsMap.get id
      (fold_left (fun acc entry => JsMap.set (fst entry) (snd entry) acc) data fg) =
      match JsMap.get id data with
      | Some g => Some g
      | None => JsMap.get id fg
      end.
Proof.
  induction data as [|[k v] data IH]; intros Hnd fg id; cbn [fold_left fst snd JsMap.get].
  - reflexivity.
  - unfold JsMap.keys in Hnd. cbn [List.map fst] in Hnd.
    inversion Hnd as [|? ? Hk Hnd']; subst. rewrite (IH Hnd').
    destruct (String.eqb k id) eqn:E.
    + apply String.eqb_eq in E. subst id.
      assert (JsMap.get k data = None) as -> by now apply jsmap_get_None_keys.
      apply jsmap_get_set_eq.
    + apply String.eqb_neq in E.
      destruct (JsMap.get id data); [reflexivity|]. now apply jsmap_get_set_ne.
Qed.

(** X3. After [loadFaceGroups] from a file with distinct keys, every cluster
    of the file is in memory as it is in the file, and a cluster that is in
    memory only is kept; without a file the map is left alone. *)
Theorem loadFaceGroups_lookup (st : Store) (data : JsMap.t) (id : string) :
  groupsFile st = Some data ->
  List.NoDup (JsMap.keys data) ->
  JsMap.get id (faceGroups (loadFaceGroups st)) =
    match JsMap.get id data with
    | Some g => Some g
    | None => JsMap.get id (faceGroups st)
    end.
Proof.
  intros Hfile Hnd. unfold loadFaceGroups. rewrite Hfile.
  cbn [withGroups faceGroups]. now apply loadFaceGroups_lookup_fold.
Qed.

Lemma loadFaceGroups_lookup_witness :
  JsMap.get "A"
    (faceGroups (loadFaceGroups
       (mkStore [("A"%string, mkGroup [0; 1]%float ["old.jpg"%string]);
                 ("B"%string, mkGroup [1; 1]%float ["b.jpg"%string])]
          ∅ (Some [("A"%string, mkGroup [1; 0]%float ["x.jpg"%string])]) 0 []))) =
    Some (mkGroup [1; 0]%float ["x.jpg"%string]).
Proof.
  rewrite (loadFaceGroups_lookup _ [("A"%string, mkGroup [1; 0]%float ["x.jpg"%string])]).
  - reflexivity.
  - reflexivity.
  - repeat constructor. intros [].
Defined.

(** ** What is written to [face-groups.json] and read back *)

Lemma arrayIndex_ordinary (key : string) : ordinaryKey key = true -> arrayIndex key = None.
Proof.
  unfold ordinaryKey, arrayIndex. intros H. apply andb_true_iff in H as [_ H].
  destruct key as [|c rest]; [reflexivity|]. apply negb_true_iff in H.
  cbn [digitsValue]. rewrite H. now destruct (Ascii.eqb c "0" && negb (String.eqb rest "")).
Qed.

Lemma objectAssign_ordinary (key : string) (v : JsonGroup) (o : JsObject) :
  ordinaryKey key = true ->
  objectAssign key v o = mkObject (indexed o) (setNamed key v (named o)).
Proof.
  intros H. unfold objectAssign, objectDefine. rewrite (arrayIndex_ordinary key H).
  unfold ordinaryKey in H. apply andb_true_iff in H as [H _].
  apply negb_true_iff in H. now rewrite H.
Qed.

Lemma objectDefine_ordinary (key : string) (v : JsonGroup) (o : JsObject) :
  ordinaryKey key = true ->
  objectDefine key v o = mkObject (indexed o) (setNamed key v (named o)).
Proof. intros H. unfold objectDefine. now rewrite (arrayIndex_ordinary key H). Qed.

Lemma setNamed_absent (key : string) (v : JsonGroup) (l : list (string * JsonGroup)) :
  ~ In key (List.map fst l) -> setNamed key v l = l ++ [(key, v)].
Proof.
  induction l as [|[k w] l IH]; intros Hnot; [reflexivity|].
  cbn [setNamed]. destruct (String.eqb_spec k key) as [->|Hne].
  - exfalso. apply Hnot. now left.
  - cbn [app]. f_equal. apply IH. intros Hin. apply Hnot. now right.
Qed.

(** Adding entries with distinct ordinary keys to an object appends them to
    its named properties. *)
Lemma fold_named (step : string -> JsonGroup -> JsObject -> JsObject)
    (entries : list (string * JsonGroup)) :
  (forall key v o, ordinaryKey key = true ->
     step key v o = mkObject (indexed o) (setNamed key v (named o))) ->
  forall o,
    List.NoDup (List.map fst (named o) ++ List.map fst entries) ->
    (forall key v, In (key, v) entries -> ordinaryKey key = true) ->
    fold_left (fun o e => step (fst e) (snd e) o) entries o =
      mkObject (indexed o) (named o ++ entries).
Proof.
  intros Hstep. induction entries as [|[key v] rest IH]; intros o Hnd Hkeys.
  - cbn [fold_left]. rewrite app_nil_r. now destruct o.
  - cbn [fold_left fst snd]. rewrite Hstep by (apply (Hkeys key v); now left).
    cbn [List.map fst] in Hnd.
    rewrite setNamed_absent.
    + rewrite IH; cbn [indexed named].
      * now rewrite <- app_assoc.
      * rewrite List.map_app, <- app_assoc. exact Hnd.
      * intros k w Hin. apply (Hkeys k w). now right.
    + intros Hin. apply NoDup_remove_2 in Hnd. apply Hnd.
      apply in_or_app. now left.
Qed.

Lemma readNumbers_safe (l : list float) :
  (forall x, In x l -> jsonNumber x = Some x) ->
  readNumbers (List.map jsonNumber l) = Some l.
Proof.
  induction l as [|x l IH]; intros Hsafe; [reflexivity|].
  cbn [List.map readNumbers fold_right]. fold (readNumbers (List.map jsonNumber l)).
  rewrite IH by (intros y Hy; apply Hsafe; now right).
  now rewrite (Hsafe x (or_introl eq_refl)).
Qed.

Lemma readClusters_safe (fg : JsMap.t) :
  jsonSafe fg ->
  readClusters (List.map (fun e => (fst e, jsonGroup (snd e))) fg) = Some fg.
Proof.
  induction fg as [|[id g] fg IH]; intros Hsafe; [reflexivity|].
  cbn [List.map readClusters fold_right fst snd jsonGroup jsonReference jsonImages].
  fold (readClusters (List.map (fun e => (fst e, jsonGroup (snd e))) fg)).
  rewrite IH by (intros id' g' x Hin; apply (Hsafe id' g' x); now right).
  rewrite readNumbers_safe by (intros x Hx; apply (Hsafe id g x); [now left|exact Hx]).
  now destruct g.
Qed.

Lemma fold_left_jsonGroup (fg : JsMap.t) : forall o,
  fold_left (fun o e => objectAssign (fst e) (jsonGroup (snd e)) o) fg o =
  fold_left (fun o e => objectAssign (fst e) (snd e) o)
    (List.map (fun e => (fst e, jsonGroup (snd e))) fg) o.
Proof. induction fg as [|e fg IH]; intros o; [reflexivity|apply IH]. Qed.

Lemma fileEntries_ordinary (fg : JsMap.t) :
  List.NoDup (JsMap.keys fg) -> ordinaryKeys fg ->
  fileEntries fg = List.map (fun e => (fst e, jsonGroup (snd e))) fg.
Proof.
  intros Hnd Hkeys.
  assert (writtenEntries fg = List.map (fun e => (fst e, jsonGroup (snd e))) fg) as Hw.
  { unfold writtenEntries.
    rewrite (fold_left_jsonGroup fg).
    rewrite (fold_named objectAssign); [reflexivity|exact objectAssign_ordinary| |].
    - cbn [named List.map app]. rewrite List.map_map. exact Hnd.
    - intros key v Hin. apply in_map_iff in Hin as ([id g] & Heq & Hin).
      injection Heq as <- _. exact (Hkeys id g Hin). }
  unfold fileEntries. rewrite Hw.
  rewrite (fold_named objectDefine); [reflexivity|exact objectDefine_ordinary| |].
  - cbn [named List.map app]. rewrite List.map_map. exact Hnd.
  - intros key v Hin. apply in_map_iff in Hin as ([id g] & Heq & Hin).
    injection Heq as <- _. exact (Hkeys id g Hin).
Qed.

(** The plain object and [JSON] at work: the key [7] is an array index and
    comes first, [__proto__] is no property, [-0] is read back as [0], [NaN]
    and the infinity as [null]. *)
Example fileEntries_corners :
  fileEntries [("b"%string, mkGroup [(-0)%float; PrimFloat.nan] ["x.jpg"%string]);
               ("__proto__"%string, mkGroup [1%float] ["y.jpg"%string]);
               ("7"%string, mkGroup [PrimFloat.infinity; 2%float] ["z.jpg"%string])] =
    [("7"%string, mkJsonGroup [None; Some 2%float] ["z.jpg"%string]);
     ("b"%string, mkJsonGroup [Some 0%float; None] ["x.jpg"%string])].
Proof. vm_compute. reflexivity. Qed.

(** X4. When the keys of the map are distinct, none is an array index or
    [__proto__], and every number of a reference embedding is one [JSON]
    gives back, the file [saveFaceGroups] writes holds the clusters of the
    map, each with its numbers and images, in the order of the map: loading
    it again, or constructing the service anew, gives back the map. *)
Theorem saveFaceGroups_round_trip (st : Store) :
  List.NoDup (JsMap.keys (faceGroups st)) ->
  ordinaryKeys (faceGroups st) ->
  jsonSafe (faceGroups st) ->
  readClusters (fileEntries (faceGroups st)) = groupsFile (saveFaceGroups st) /\
  faceGroups (loadFaceGroups (saveFaceGroups st)) = faceGroups st /\
  faceGroups (restart (saveFaceGroups st)) = faceGroups st.
Proof.
  intros Hnd Hkeys Hsafe. split; [|split].
  - rewrite (fileEntries_ordinary _ Hnd Hkeys). now apply readClusters_safe.
  - unfold loadFaceGroups, saveFaceGroups. cbn [groupsFile withGroups faceGroups].
    apply loadFaceGroups_own_entries; [exact Hnd|apply incl_refl].
  - unfold restart, newService, loadFaceGroups, saveFaceGroups.
    cbn [groupsFile withGroups faceGroups faceFiles].
    now rewrite (loadFaceGroups_append (faceGroups st) []).
Qed.

Lemma saveFaceGroups_round_trip_witness :
  readClusters (fileEntries
     (faceGroups (snd (processImage tickingEnv "two.jpg" oneClusterStore)))) =
    Some [("A"%string, mkGroup [1; 0]%float ["x.jpg"; "two.jpg"]%string);
          ("face_1700000000000_k3x9q0zab"%string,
           mkGroup [0; 1]%float ["two.jpg"%string])] /\
  faceGroups (restart (saveFaceGroups
     (snd (processImage tickingEnv "two.jpg" oneClusterStore)))) =
    [("A"%string, mkGroup [1; 0]%float ["x.jpg"; "two.jpg"]%string);
     ("face_1700000000000_k3x9q0zab"%string, mkGroup [0; 1]%float ["two.jpg"%string])].
Proof.
  destruct (saveFaceGroups_round_trip
              (snd (processImage tickingEnv "two.jpg" oneClusterStore)))
    as (Hfile & _ & Hrestart).
  - vm_compute. repeat constructor; [intros [H|[]]; discriminate|intros []].
  - intros id g Hin. vm_compute in Hin.
    destruct Hin as [H|[H|[]]]; injection H as <- _; reflexivity.
  - intros id g x Hin Hx. vm_compute in Hin.
    destruct Hin as [H|[H|[]]]; injection H as _ <-;
      cbn [referenceEmbedding] in Hx; destruct Hx as [<-|[<-|[]]]; reflexivity.
  - split; [rewrite Hfile|rewrite Hrestart]; vm_compute; reflexivity.
Defined.

(** ** Failures of [processImage] *)

(** X6. A call of [processImage] that throws, because the image is not
    there or because the detector throws, changes neither the clusters nor
    any file: the store is as before, but for the detector call in the trace
    when it is the detector that threw. *)
Theorem processImage_failure_changes_nothing (env : Env) (name : string) (st : Store)
    (message : string) :
  fst (processImage env name st) = Thrown message ->
  sameState (snd (processImage env name st)) st /\
  (trace (snd (processImage env name st)) = trace st \/
   trace (snd (processImage env name st)) = trace st ++ [Detect (imagePath env name)]).
Proof.
  unfold processImage.
  destruct (existsSync env (imagePath env name)); cbn [negb fst snd];
    [|intros _; repeat split; now left].
  destruct (faceFiles st !! faceDataKey name); cbn [fst]; [discriminate|].
  destruct (detectFaces env (imagePath env name)) as [detected|msg]; cbn [fst snd].
  - destruct (Nat.eqb (length detected) 0); cbn [fst]; [discriminate|].
    destruct (assignFaces env name detected _ []) as [st2 emitted]. discriminate.
  - intros _. repeat split. now right.
Qed.

Lemma processImage_failure_changes_nothing_witness :
  fst (processImage tickingEnv "broken.jpg" oneClusterStore) =
    Thrown "Input buffer contains unsupported image format" /\
  sameState (snd (processImage tickingEnv "broken.jpg" oneClusterStore)) oneClusterStore.
Proof.
  split; [reflexivity|].
  apply (processImage_failure_changes_nothing tickingEnv "broken.jpg" oneClusterStore
           "Input buffer contains unsupported image format").
  reflexivity.
Defined.

(** ** The record of a freshly processed image *)

Lemma assignFaces_length (env : Env) (name : string) (detected : list Face) :
  forall st emitted,
    length (snd (assignFaces env name detected st emitted)) =
      length emitted + length detected.
Proof.
  induction detected as [|face rest IH]; intros st emitted; cbn [assignFaces snd length].
  - lia.
  - destruct (assignFace env name st face) as [st' entry].
    rewrite IH, length_app. cbn [length]. lia.
Qed.

Lemma assignFaces_files (env : Env) (name : string) (detected : list Face) :
  forall st emitted,
    faceFiles (fst (assignFaces env name detected st emitted)) = faceFiles st /\
    groupsFile (fst (assignFaces env name detected st emitted)) = groupsFile st.
Proof.
  induction detected as [|face rest IH]; intros st emitted; cbn [assignFaces].
  - split; reflexivity.
  - destruct (assignFace_shape env name st face)
      as [(gid & sim & best & Hget & Heq)|Heq]; rewrite Heq;
      destruct (IH (fst (assignFace env name st face)) (emitted ++ [snd (assignFace env name st face)]))
        as [Hf Hg]; rewrite Heq in Hf, Hg; cbn [fst snd] in Hf, Hg;
      split; assumption.
Qed.

Lemma faces_copied (detected : list Face) :
  List.map (fun f => mkFace (embedding f) (box f)) detected = detected.
Proof. induction detected as [|[e b] rest IH]; cbn; now rewrite ?IH. Qed.

(** How a call that finds no record and returns came about. *)
Lemma processImage_fresh_inv (env : Env) (name : string) (st st' : Store)
    (result : ImageFaceRecord) :
  faceFiles st !! faceDataKey name = None ->
  processImage env name st = (Returned result, st') ->
  exists detected,
    imageAt env (imagePath env name) = Some (Returned detected) /\
    result = mkRecord name detected
               (snd (assignFaces env name detected
                       (logEvent (Detect (imagePath env name)) st) [])) /\
    faceGroups st' =
      faceGroups (fst (assignFaces env name detected
                         (logEvent (Detect (imagePath env name)) st) [])).
Proof.
  intros Hnone. unfold processImage, existsSync, detectFaces. rewrite Hnone.
  destruct (imageAt env (imagePath env name)) as [[detected|msg]|]; cbn [negb];
    try discriminate.
  exists detected. split; [reflexivity|].
  destruct detected as [|face rest].
  - cbn in H. injection H as <- <-. split; reflexivity.
  - cbn [length Nat.eqb] in H. rewrite faces_copied in H.
    destruct (assignFaces env name (face :: rest) _ []) as [st2 emitted].
    injection H as <- <-. split; reflexivity.
Qed.

(** X7. The record of an image processed for the first time has the file name
    asked for, the faces the detector returned, in its order, and one group
    entry per face. *)
Theorem processImage_record_shape (env : Env) (name : string) (st st' : Store)
    (result : ImageFaceRecord) :
  faceFiles st !! faceDataKey name = None ->
  processImage env name st = (Returned result, st') ->
  filename result = name /\
  imageAt env (imagePath env name) = Some (Returned (faces result)) /\
  length (groups result) = length (faces result).
Proof.
  intros Hnone Hrun.
  destruct (processImage_fresh_inv env name st st' result Hnone Hrun)
    as (detected & Himage & -> & _).
  cbn [filename faces groups]. repeat split; [exact Himage|].
  now rewrite assignFaces_length.
Qed.

Lemma processImage_record_shape_witness :
  exists result st',
    processImage tickingEnv "two.jpg" oneClusterStore = (Returned result, st') /\
    length (groups result) = 2 /\ length (faces result) = 2.
Proof.
  eexists. eexists. split; [vm_compute; reflexivity|].
  destruct (processImage_record_shape tickingEnv "two.jpg" oneClusterStore _ _
              eq_refl eq_refl) as (_ & _ & Hlen).
  split; [exact Hlen|reflexivity].
Defined.

(** Every entry emitted so far names a cluster that holds the image. *)
Lemma assignFaces_entries_point_to_image (env : Env) (name : string)
    (detected : list Face) :
  forall st emitted,
    (forall entry, In entry emitted ->
       exists g, JsMap.get (groupId entry) (faceGroups st) = Some g /\
                 In name (images g)) ->
    forall entry, In entry (snd (assignFaces env name detected st emitted)) ->
      exists g,
        JsMap.get (groupId entry)
          (faceGroups (fst (assignFaces env name detected st emitted))) = Some g /\
        In name (images g).
Proof.
  induction detected as [|face rest IH]; intros st emitted Hold; cbn [assignFaces].
  - exact Hold.
  - destruct (assignFace_shape env name st face)
      as [(gid & sim & best & Hget & Heq)|Heq]; rewrite Heq; apply IH;
      cbn [faceGroups withGroups]; intros entry Hin; apply in_app_or in Hin.
    + destruct (includes name (images best)) eqn:Einc.
      * destruct Hin as [Hin|[<-|[]]]; [now apply Hold|].
        exists best. split; [exact Hget|]. now apply includes_In.
      * destruct (String.eqb gid (groupId entry)) eqn:E.
        -- apply String.eqb_eq in E. rewrite <- E. eexists.
           split; [apply jsmap_get_set_eq|]. cbn [images]. apply in_or_app.
           right. now left.
        -- apply String.eqb_neq in E. destruct Hin as [Hin|[<-|[]]];
             [|now destruct E].
           rewrite jsmap_get_set_ne by exact E. now apply Hold.
    + destruct (String.eqb (generateId env (draws st)) (groupId entry)) eqn:E.
      * apply String.eqb_eq in E. rewrite <- E. eexists.
        split; [apply jsmap_get_set_eq|]. now left.
      * apply String.eqb_neq in E. destruct Hin as [Hin|[<-|[]]];
          [|now destruct E].
        rewrite jsmap_get_set_ne by exact E. now apply Hold.
Qed.

(** X8. When [processImage] has processed an image for the first time, every
    group id in the record it returns is the id of a cluster of the map, and
    the images of that cluster contain the file name. *)
Theorem processImage_groups_point_to_image (env : Env) (name : string) (st st' : Store)
    (result : ImageFaceRecord) :
  faceFiles st !! faceDataKey name = None ->
  processImage env name st = (Returned result, st') ->
  forall entry, In entry (groups result) ->
    exists g, JsMap.get (groupId entry) (faceGroups st') = Some g /\ In name (images g).
Proof.
  intros Hnone Hrun.
  destruct (processImage_fresh_inv env name st st' result Hnone Hrun)
    as (detected & _ & -> & ->).
  cbn [groups]. apply assignFaces_entries_point_to_image. intros entry [].
Qed.

Lemma processImage_groups_point_to_image_witness :
  exists g,
    JsMap.get "A" (faceGroups (snd (processImage tickingEnv "two.jpg" oneClusterStore))) =
      Some g /\
    In "two.jpg"%string (images g).
Proof.
  apply (processImage_groups_point_to_image tickingEnv "two.jpg" oneClusterStore _ _
           eq_refl eq_refl (mkGroupRef "A" 1%float)).
  vm_compute. now left.
Defined.

Lemma matchFace_above (emb : list float) (threshold : float) (fg : JsMap.t)
    (id : string) (sim : float) :
  matchFace emb threshold fg = Some (id, sim) -> F64.gt sim threshold = true.
Proof.
  unfold matchFace.
  destruct (matchLoop_spec emb fg None threshold)
    as [[Heq _]|(id' & g & _ & Heq & Hgt & _)]; rewrite Heq; [discriminate|].
  destruct (truthy id'); [|discriminate].
  intros H. now injection H as _ <-.
Qed.

Lemma assignFaces_similarities (env : Env) (name : string) (detected : list Face) :
  forall st emitted,
    (forall entry, In entry emitted ->
       F64.gt (similarity entry) defaultThreshold = true) ->
    forall entry, In entry (snd (assignFaces env name detected st emitted)) ->
      F64.gt (similarity entry) defaultThreshold = true.
Proof.
  induction detected as [|face rest IH]; intros st emitted Hold; cbn [assignFaces].
  - exact Hold.
  - assert (F64.gt (similarity (snd (assignFace env name st face))) defaultThreshold = true)
      as Hnew.
    { unfold assignFace.
      destruct (matchFace (embedding face) defaultThreshold (faceGroups st))
        as [[gid sim]|] eqn:Hmatch; cbn [snd similarity].
      - exact (matchFace_above _ _ _ _ _ Hmatch).
      - reflexivity. }
    destruct (assignFace env name st face) as [st1 entry1]. apply IH.
    intros entry Hin. apply in_app_or in Hin.
    destruct Hin as [Hin|[<-|[]]]; [now apply Hold|exact Hnew].
Qed.

(** X9. Every similarity in the record of an image processed for the first
    time is greater than 0.6: it is the similarity to the matched cluster,
    or 1.0 for a cluster stored for the face. *)
Theorem processImage_similarities_above_threshold (env : Env) (name : string)
    (st st' : Store) (result : ImageFaceRecord) :
  faceFiles st !! faceDataKey name = None ->
  processImage env name st = (Returned result, st') ->
  forall entry, In entry (groups result) ->
    F64.gt (similarity entry) defaultThreshold = true.
Proof.
  intros Hnone Hrun.
  destruct (processImage_fresh_inv env name st st' result Hnone Hrun)
    as (detected & _ & -> & _).
  cbn [groups]. apply assignFaces_similarities. intros entry [].
Qed.

Lemma processImage_similarities_above_threshold_witness :
  F64.gt (similarity (mkGroupRef "A" 1%float)) defaultThreshold = true /\
  fst (processImage tickingEnv "y.jpg" oneClusterStore) =
    Returned (mkRecord "y.jpg" [mkFace [1; 0]%float sampleBox] [mkGroupRef "A" 1%float]).
Proof.
  split; [|vm_compute; reflexivity].
  apply (processImage_similarities_above_threshold tickingEnv "y.jpg" oneClusterStore
           _ _ eq_refl eq_refl).
  vm_compute. now left.
Defined.

(** ** Record files *)

Lemma processImage_keeps_records (env : Env) (name : string) (st : Store)
    (key : string) (record : ImageFaceRecord) :
  faceFiles st !! key = Some record ->
  faceFiles (snd (processImage env name st)) !! key = Some record.
Proof.
  intros Hrec. unfold processImage.
  destruct (existsSync env (imagePath env name)); cbn [negb snd]; [|exact Hrec].
  destruct (faceFiles st !! faceDataKey name) eqn:Ekey; [exact Hrec|].
  assert (faceDataKey name <> key) as Hne by (intros Heq; rewrite Heq in Ekey; congruence).
  destruct (detectFaces env (imagePath env name)) as [detected|msg]; [|exact Hrec].
  destruct (Nat.eqb (length detected) 0); cbn [snd].
  - cbn [writeRecord faceFiles logEvent]. now rewrite lookup_insert_ne.
  - pose proof (assignFaces_files env name detected
                  (logEvent (Detect (imagePath env name)) st) []) as [Hfiles _].
    destruct (assignFaces env name detected _ []) as [st2 emitted]. cbn [fst] in Hfiles.
    cbn [snd saveFaceGroups writeRecord faceFiles]. rewrite lookup_insert_ne by exact Hne.
    now rewrite Hfiles.
Qed.

Lemma processImagesFrom_keeps_records (env : Env) (cb : option Callback) (total : nat)
    (filenames : list string) (key : string) (record : ImageFaceRecord) :
  forall i st acc,
    faceFiles st !! key = Some record ->
    faceFiles (snd (processImagesFrom env cb total i filenames st acc)) !! key =
      Some record.
Proof.
  induction filenames as [|name rest IH]; intros i st acc Hrec; cbn [processImagesFrom].
  - exact Hrec.
  - pose proof (processImage_keeps_records env name st key record Hrec) as Hstep.
    destruct (processImage env name st) as [[result|message] st1]; cbn [snd] in Hstep;
      [|now apply IH].
    destruct cb as [callback|]; [|now apply IH].
    destruct (callback (i + 1) total name); now apply IH.
Qed.

(** X10. A record file is written once: whatever operation runs, a record
    file that is there stays there with the record it holds. This is for the
    files other than [face-groups.json], which [saveFaceGroups] writes anew
    each time and which the model keeps apart. *)
Theorem record_files_are_never_rewritten (env : Env) (op : Operation) (st : Store)
    (key : string) (record : ImageFaceRecord) :
  key <> groupsFileName ->
  faceFiles st !! key = Some record ->
  faceFiles (run env op st) !! key = Some record.
Proof.
  intros _ Hrec.
  destruct op as [path|a b|emb threshold|name| |gid| | |filenames cb]; cbn [run];
    try exact Hrec.
  - now apply processImage_keeps_records.
  - unfold loadFaceGroups. now destruct (groupsFile st).
  - unfold processImages. now apply processImagesFrom_keeps_records.
Qed.

Lemma record_files_are_never_rewritten_witness :
  faceFiles (run tickingEnv (OpProcessImages ["gone.jpg"; "two.jpg"]%string None)
               staleStore) !! "gone.jpg.json"%string =
    Some (mkRecord "gone.jpg" [] []).
Proof.
  apply (record_files_are_never_rewritten tickingEnv
           (OpProcessImages ["gone.jpg"; "two.jpg"]%string None) staleStore).
  - discriminate.
  - vm_compute. reflexivity.
Defined.

Lemma replaceSlashes_no_slash (s : string) : hasChar "/" (replaceSlashes s) = false.
Proof.
  unfold hasChar. induction s as [|c s IH]; [reflexivity|].
  cbn [replaceSlashes list_ascii_of_string existsb]. rewrite IH, orb_false_r.
  destruct (Ascii.eqb c "/") eqn:E; [reflexivity|].
  rewrite Ascii.eqb_sym. exact E.
Qed.

Lemma hasChar_app (c : ascii) (a b : string) :
  hasChar c (a +:+ b) = hasChar c a || hasChar c b.
Proof.
  unfold hasChar. induction a as [|x a IH]; [reflexivity|].
  simpl. rewrite IH. now rewrite orb_assoc.
Qed.

Lemma replaceSlashes_inj (a : string) : forall b : string,
  hasChar "_" a = false -> hasChar "_" b = false ->
  replaceSlashes a = replaceSlashes b -> a = b.
Proof.
  unfold hasChar.
  induction a as [|x a IH]; intros [|y b] Ha Hb Heq; cbn [replaceSlashes] in Heq;
    try discriminate; [reflexivity|].
  cbn [list_ascii_of_string existsb] in Ha, Hb.
  apply orb_false_iff in Ha. apply orb_false_iff in Hb.
  destruct Ha as [Hx Ha], Hb as [Hy Hb].
  injection Heq as Hc Hrest. rewrite (IH b Ha Hb Hrest). f_equal.
  destruct (Ascii.eqb x "/") eqn:Ex, (Ascii.eqb y "/") eqn:Ey.
  - apply Ascii.eqb_eq in Ex, Ey. congruence.
  - subst y. now rewrite Ascii.eqb_refl in Hy.
  - subst x. now rewrite Ascii.eqb_refl in Hx.
  - exact Hc.
Qed.

(** X11. The name of a record file holds no [/]; and two file names without
    [_] have the same record file only if they are the same name. *)
Theorem faceDataKey_flat_and_injective_without_underscore (a b : string) :
  hasChar "/" (faceDataKey a) = false /\
  (hasChar "_" a = false -> hasChar "_" b = false ->
   faceDataKey a = faceDataKey b -> a = b).
Proof.
  unfold faceDataKey. split.
  - rewrite hasChar_app, replaceSlashes_no_slash. reflexivity.
  - intros Ha Hb Heq. apply string_app_inv_tail in Heq.
    now apply replaceSlashes_inj.
Qed.

Lemma faceDataKey_flat_and_injective_without_underscore_witness :
  hasChar "/" (faceDataKey "a/b.jpg") = false /\
  (faceDataKey "a/b.jpg" = faceDataKey "a/b.jpg" -> "a/b.jpg"%string = "a/b.jpg"%string).
Proof.
  destruct (faceDataKey_flat_and_injective_without_underscore "a/b.jpg" "a/b.jpg")
    as [Hflat Hinj].
  split; [exact Hflat|]. apply Hinj; reflexivity.
Defined.




(** ** How the clusters grow *)

Lemma grownBy_refl (name : string) (fg : JsMap.t) : grownBy name fg fg.
Proof.
  split; [exists []; now rewrite app_nil_r|split].
  - intros id g Hget. exists g. split; [exact Hget|now left].
  - intros id g' Hsome Hnone. congruence.
Qed.

Lemma grownBy_trans (name : string) (fg1 fg2 fg3 : JsMap.t) :
  grownBy name fg1 fg2 -> grownBy name fg2 fg3 -> grownBy name fg1 fg3.
Proof.
  intros ((add1 & Hk1) & Hold1 & Hnew1) ((add2 & Hk2) & Hold2 & Hnew2).
  split; [exists (add1 ++ add2); now rewrite Hk2, Hk1, app_assoc|split].
  - intros id g Hget.
    destruct (Hold1 id g Hget) as (g2 & Hget2 & Hg2).
    destruct (Hold2 id g2 Hget2) as (g3 & Hget3 & Hg3).
    exists g3. split; [exact Hget3|].
    destruct Hg2 as [Heq2|[Hnot2 Heq2]], Hg3 as [Heq3|[Hnot3 Heq3]].
    + left. congruence.
    + right. rewrite <- Heq2. split; [exact Hnot3|exact Heq3].
    + right. split; [exact Hnot2|congruence].
    + exfalso. apply Hnot3. rewrite Heq2. apply in_or_app. right. now left.
  - intros id g3 Hget3 Hnone.
    destruct (JsMap.get id fg2) as [g2|] eqn:Hget2.
    + pose proof (Hnew1 id g2 Hget2 Hnone) as Himg.
      destruct (Hold2 id g2 Hget2) as (g3' & Hget3' & Hg3).
      assert (g3' = g3) as -> by congruence.
      destruct Hg3 as [Heq|[Hnot _]]; [congruence|].
      exfalso. apply Hnot. rewrite Himg. now left.
    + exact (Hnew2 id g3 Hget3 Hget2).
Qed.

Lemma grownBy_push (name gid : string) (best : Group) (fg : JsMap.t) :
  JsMap.get gid fg = Some best -> ~ In name (images best) ->
  grownBy name fg
    (JsMap.set gid (mkGroup (referenceEmbedding best) (images best ++ [name])) fg).
Proof.
  intros Hget Hnot. split; [|split].
  - exists []. rewrite app_nil_r. now apply (jsmap_keys_set_present gid _ best).
  - intros id g Hid. destruct (String.eqb_spec gid id) as [<-|Hne].
    + rewrite jsmap_get_set_eq. eexists. split; [reflexivity|].
      right. assert (g = best) as -> by congruence. now split.
    + rewrite jsmap_get_set_ne by exact Hne. exists g. split; [exact Hid|now left].
  - intros id g' Hsome Hnone. destruct (String.eqb_spec gid id) as [<-|Hne].
    + congruence.
    + rewrite jsmap_get_set_ne in Hsome by exact Hne. congruence.
Qed.

Lemma grownBy_new (name gid : string) (emb : list float) (fg : JsMap.t) :
  JsMap.get gid fg = None ->
  grownBy name fg (JsMap.set gid (mkGroup emb [name]) fg).
Proof.
  intros Hnone. split; [|split].
  - exists [gid]. rewrite (jsmap_set_absent gid _ fg Hnone).
    unfold JsMap.keys. now rewrite List.map_app.
  - intros id g Hid. destruct (String.eqb_spec gid id) as [<-|Hne]; [congruence|].
    rewrite jsmap_get_set_ne by exact Hne. exists g. split; [exact Hid|now left].
  - intros id g' Hsome Hid. destruct (String.eqb_spec gid id) as [<-|Hne].
    + rewrite jsmap_get_set_eq in Hsome. now injection Hsome as <-.
    + rewrite jsmap_get_set_ne in Hsome by exact Hne. congruence.
Qed.

Lemma assignFace_grows (env : Env) (name : string) (st : Store) (face : Face) :
  FreshIds env st ->
  grownBy name (faceGroups st) (faceGroups (fst (assignFace env name st face))).
Proof.
  intros [Hnew _].
  destruct (assignFace_shape env name st face)
    as [(gid & sim & best & Hget & ->)| ->]; cbn [fst withGroups faceGroups].
  - destruct (includes name (images best)) eqn:Hinc; [apply grownBy_refl|].
    apply grownBy_push; [exact Hget|].
    intros Hin. apply includes_In in Hin. congruence.
  - apply grownBy_new. now apply Hnew.
Qed.

Lemma assignFaces_grows (env : Env) (name : string) (detected : list Face) :
  forall st emitted,
    FreshIds env st ->
    grownBy name (faceGroups st)
      (faceGroups (fst (assignFaces env name detected st emitted))).
Proof.
  induction detected as [|face rest IH]; intros st emitted Hfresh; cbn [assignFaces].
  - apply grownBy_refl.
  - pose proof (assignFace_grows env name st face Hfresh) as Hstep.
    destruct (assignFace_fresh env name st face Hfresh) as [Hfresh' _].
    destruct (assignFace env name st face) as [st' entry]. cbn [fst] in *.
    exact (grownBy_trans _ _ _ _ Hstep (IH st' (emitted ++ [entry]) Hfresh')).
Qed.

Lemma processImage_grows (env : Env) (name : string) (st : Store) :
  FreshIds env st ->
  grownBy name (faceGroups st) (faceGroups (snd (processImage env name st))).
Proof.
  intros Hfresh. unfold processImage.
  destruct (existsSync env (imagePath env name)); cbn [negb snd]; [|apply grownBy_refl].
  destruct (faceFiles st !! faceDataKey name); [apply grownBy_refl|].
  destruct (detectFaces env (imagePath env name)) as [detected|msg]; [|apply grownBy_refl].
  destruct (Nat.eqb (length detected) 0); cbn [snd]; [apply grownBy_refl|].
  pose proof (assignFaces_grows env name detected
                (logEvent (Detect (imagePath env name)) st) [] Hfresh) as Hgrow.
  destruct (assignFaces env name detected _ []) as [st2 emitted]. cbn [fst] in Hgrow.
  exact Hgrow.
Qed.

(** X13. While the ids still to be generated are new, [processImage] only
    makes the clusters grow: keys are added behind the ones there, a cluster
    that was there keeps its images in their order, with the file name of the
    call pushed behind them at most once, and a cluster that was not there
    holds that file name alone. *)
Theorem processImage_clusters_only_grow (env : Env) (name : string) (st : Store) :
  FreshIds env st ->
  grownBy name (faceGroups st) (faceGroups (snd (processImage env name st))).
Proof. exact (processImage_grows env name st). Qed.

Lemma processImage_clusters_only_grow_witness :
  grownBy "two.jpg" (faceGroups oneClusterStore)
    (faceGroups (snd (processImage tickingEnv "two.jpg" oneClusterStore))).
Proof.
  apply (processImage_clusters_only_grow tickingEnv "two.jpg" oneClusterStore).
  exact oneClusterStore_fresh.
Defined.

Lemma imagesGrow_refl (names : list string) (fg : JsMap.t) : imagesGrow names fg fg.
Proof.
  intros id g Hget. exists g, []. split; [exact Hget|split].
  - now rewrite app_nil_r.
  - intros x [].
Qed.

Lemma imagesGrow_trans (names : list string) (fg1 fg2 fg3 : JsMap.t) :
  imagesGrow names fg1 fg2 -> imagesGrow names fg2 fg3 -> imagesGrow names fg1 fg3.
Proof.
  intros H12 H23 id g Hget.
  destruct (H12 id g Hget) as (g2 & extra2 & Hget2 & Himg2 & Hin2).
  destruct (H23 id g2 Hget2) as (g3 & extra3 & Hget3 & Himg3 & Hin3).
  exists g3, (extra2 ++ extra3). split; [exact Hget3|split].
  - now rewrite Himg3, Himg2, app_assoc.
  - intros x Hx. apply in_app_or in Hx. destruct Hx; auto.
Qed.

Lemma grownBy_imagesGrow (name : string) (names : list string) (fg fg' : JsMap.t) :
  In name names -> grownBy name fg fg' -> imagesGrow names fg fg'.
Proof.
  intros Hin (_ & Hold & _) id g Hget.
  destruct (Hold id g Hget) as (g' & Hget' & [Heq|[_ Heq]]).
  - exists g', []. split; [exact Hget'|split].
    + now rewrite app_nil_r.
    + intros x [].
  - exists g', [name]. split; [exact Hget'|split; [exact Heq|]].
    intros x [<-|[]]. exact Hin.
Qed.

Lemma imagesGrow_weaken (names names' : list string) (fg fg' : JsMap.t) :
  (forall x, In x names -> In x names') ->
  imagesGrow names fg fg' -> imagesGrow names' fg fg'.
Proof.
  intros Hsub Hgrow id g Hget.
  destruct (Hgrow id g Hget) as (g' & extra & Hget' & Himg & Hin).
  exists g', extra. split; [exact Hget'|split; [exact Himg|]]. auto.
Qed.

Lemma processImagesFrom_grows (env : Env) (cb : option Callback) (total : nat)
    (filenames : list string) :
  forall i st acc,
    FreshIds env st ->
    imagesGrow filenames (faceGroups st)
      (faceGroups (snd (processImagesFrom env cb total i filenames st acc))).
Proof.
  induction filenames as [|name rest IH]; intros i st acc Hfresh; cbn [processImagesFrom].
  - apply imagesGrow_refl.
  - destruct (processImage_fresh env name st Hfresh) as [Hfresh1 _].
    pose proof (grownBy_imagesGrow name (name :: rest) _ _ (or_introl eq_refl)
                  (processImage_grows env name st Hfresh)) as Hstep.
    assert (forall st' acc',
              FreshIds env st' ->
              faceGroups st' = faceGroups (snd (processImage env name st)) ->
              imagesGrow (name :: rest) (faceGroups st)
                (faceGroups (snd (processImagesFrom env cb total (S i) rest st' acc'))))
      as Hgo.
    { intros st' acc' Hf Heq. apply (imagesGrow_trans _ _ _ _ Hstep). rewrite <- Heq.
      apply (imagesGrow_weaken rest); [intros x Hx; now right|]. now apply IH. }
    destruct (processImage env name st) as [[result|message] st1]; cbn [snd] in *;
      [|now apply Hgo].
    destruct cb as [callback|]; [|now apply Hgo].
    destruct (callback (i + 1) total name); now apply Hgo.
Qed.

(** X14. While the ids still to be generated are new, a batch never takes an
    image out of a cluster and never drops a cluster: every cluster that was
    there before [processImages] is there after it, its images followed by
    file names of the batch, whatever the callback does. *)
Theorem processImages_clusters_only_grow (env : Env) (filenames : list string)
    (cb : option Callback) (st : Store) :
  FreshIds env st ->
  imagesGrow filenames (faceGroups st)
    (faceGroups (snd (processImages env filenames cb st))).
Proof. intros Hfresh. unfold processImages. now apply processImagesFrom_grows. Qed.

Lemma processImages_clusters_only_grow_witness :
  imagesGrow ["two.jpg"; "gone.jpg"]%string (faceGroups oneClusterStore)
    (faceGroups (snd (processImages tickingEnv ["two.jpg"; "gone.jpg"]%string
                        (Some failingCallback) oneClusterStore))).
Proof.
  apply (processImages_clusters_only_grow tickingEnv ["two.jpg"; "gone.jpg"]%string
           (Some failingCallback) oneClusterStore).
  exact oneClusterStore_fresh.
Defined.

(** ** Vectors of different lengths *)

Lemma f64_add_nan_r (x : float) : PrimFloat.add x PrimFloat.nan = PrimFloat.nan.
Proof.
  apply Prim2SF_inj. rewrite add_spec.
  change (Prim2SF PrimFloat.nan) with S754_nan.
  now destruct (Prim2SF x).
Qed.

Lemma f64_add_nan_l (x : float) : PrimFloat.add PrimFloat.nan x = PrimFloat.nan.
Proof.
  apply Prim2SF_inj. rewrite add_spec.
  change (Prim2SF PrimFloat.nan) with S754_nan. reflexivity.
Qed.

Lemma f64_mul_nan_r (x : float) : PrimFloat.mul x PrimFloat.nan = PrimFloat.nan.
Proof.
  apply Prim2SF_inj. rewrite mul_spec.
  change (Prim2SF PrimFloat.nan) with S754_nan.
  now destruct (Prim2SF x).
Qed.

Lemma f64_div_nan_r (x : float) : PrimFloat.div x PrimFloat.nan = PrimFloat.nan.
Proof.
  apply Prim2SF_inj. rewrite div_spec.
  change (Prim2SF PrimFloat.nan) with S754_nan.
  now destruct (Prim2SF x).
Qed.

Lemma f64_gt_nan (x : float) : F64.gt PrimFloat.nan x = false.
Proof.
  unfold F64.gt. rewrite ltb_spec.
  change (Prim2SF PrimFloat.nan) with S754_nan.
  unfold SFltb. now destruct (Prim2SF x).
Qed.

Lemma f64_eq_congr_gt (w x y : float) :
  F64.strict_eq w x = true -> F64.gt x y = true -> F64.gt w y = true.
Proof.
  unfold F64.strict_eq, F64.gt. rewrite FloatAxioms.eqb_spec, !ltb_spec. unfold SFeqb, SFltb.
  destruct (Prim2SF w) as [sw|sw| |sw mw ew], (Prim2SF x) as [sx|sx| |sx mx ex],
           (Prim2SF y) as [sy|sy| |sy my ey]; compare_cases.
Qed.

(** What is above [y] is not equal to what is not. *)
Lemma f64_below_not_eq (w x y : float) :
  F64.gt x y = true -> F64.gt w y = false -> F64.strict_eq w x = false.
Proof.
  intros Hxy Hwy. destruct (F64.strict_eq w x) eqn:E; [|reflexivity].
  now rewrite (f64_eq_congr_gt _ _ _ E Hxy) in Hwy.
Qed.

Lemma cosineLoop_firstn (a : list float) : forall (b : list float) acc,
  cosineLoop a (firstn (length a) b) acc = cosineLoop a b acc.
Proof.
  induction a as [|x a IH]; intros b [[d n1] n2]; [reflexivity|].
  destruct b as [|y b]; cbn [length firstn cosineLoop tail]; [reflexivity|apply IH].
Qed.

Lemma cosineLoop_nan (a : list float) : forall (b : list float) (n1 : float),
  exists n1', cosineLoop a b (PrimFloat.nan, n1, PrimFloat.nan) =
                (PrimFloat.nan, n1', PrimFloat.nan).
Proof.
  induction a as [|x a IH]; intros b n1; cbn [cosineLoop]; [now exists n1|].
  rewrite !f64_add_nan_l. apply IH.
Qed.

Lemma cosineLoop_short (a : list float) : forall (b : list float) (d n1 n2 : float),
  length b < length a ->
  exists n1', cosineLoop a b (d, n1, n2) = (PrimFloat.nan, n1', PrimFloat.nan).
Proof.
  induction a as [|x a IH]; intros b d n1 n2 Hlen; cbn [length] in Hlen; [lia|].
  destruct b as [|y b]; cbn [cosineLoop tail].
  - rewrite !f64_mul_nan_r, !f64_add_nan_r. apply cosineLoop_nan.
  - apply IH. cbn [length] in Hlen. lia.
Qed.

Lemma cosineSimilarity_short (a b : list float) :
  length b < length a ->
  cosineSimilarity a b = 0%float \/ cosineSimilarity a b = PrimFloat.nan.
Proof.
  intros Hlen. unfold cosineSimilarity, cosineBranch.
  destruct (cosineLoop_short a b 0%float 0%float 0%float Hlen) as (n1 & ->).
  destruct (F64.strict_eq (PrimFloat.sqrt n1) 0 || F64.strict_eq (PrimFloat.sqrt PrimFloat.nan) 0);
    [now left|right].
  change (PrimFloat.sqrt PrimFloat.nan) with PrimFloat.nan.
  now rewrite f64_mul_nan_r, f64_div_nan_r.
Qed.

(** X15. [cosineSimilarity] reads of its second argument only as many
    components as the first one has: what lies behind them has no bearing
    on the result. *)
Theorem cosineSimilarity_ignores_surplus (a b extra : list float) :
  length a <= length b ->
  cosineSimilarity a (b ++ extra) = cosineSimilarity a b.
Proof.
  intros Hlen. unfold cosineSimilarity, cosineBranch.
  rewrite <- (cosineLoop_firstn a (b ++ extra)), <- (cosineLoop_firstn a b).
  rewrite firstn_app. replace (length a - length b) with 0 by lia.
  cbn [firstn]. now rewrite app_nil_r.
Qed.

Lemma cosineSimilarity_ignores_surplus_witness :
  cosineSimilarity [1%float; 2%float] ([2%float; 1%float] ++ [7%float]) =
    cosineSimilarity [1%float; 2%float] [2%float; 1%float].
Proof.
  apply (cosineSimilarity_ignores_surplus [1%float; 2%float] [2%float; 1%float]
           [7%float]).
  cbn [length]. lia.
Defined.

(** X16. When the second argument is shorter than the first, the loop reads
    [undefined] and [cosineSimilarity] returns [0] or [NaN]; neither is above
    the threshold of [matchFace], so a reference embedding shorter than the
    embedding of a face is never matched. *)
Theorem cosineSimilarity_short_reference (a b : list float) :
  length b < length a ->
  (cosineSimilarity a b = 0%float \/ cosineSimilarity a b = PrimFloat.nan) /\
  F64.gt (cosineSimilarity a b) defaultThreshold = false.
Proof.
  intros Hlen. pose proof (cosineSimilarity_short a b Hlen) as Hres.
  split; [exact Hres|]. destruct Hres as [-> | ->]; [reflexivity|apply f64_gt_nan].
Qed.

Lemma cosineSimilarity_short_reference_witness :
  (cosineSimilarity [1%float; 2%float] [1%float] = 0%float \/
   cosineSimilarity [1%float; 2%float] [1%float] = PrimFloat.nan) /\
  F64.gt (cosineSimilarity [1%float; 2%float] [1%float]) defaultThreshold = false.
Proof.
  apply (cosineSimilarity_short_reference [1%float; 2%float] [1%float]).
  cbn [length]. lia.
Defined.

(** ** The choice of [matchFace] *)

(** The loop of [matchFace], with the place of the entry it picks: nothing
    before it is as similar, nothing behind it is more similar. *)
Lemma matchLoop_first_best (emb : list float) (entries : JsMap.t) :
  forall (bestMatch : option string) (bestSimilarity : float),
    (matchLoop emb entries bestMatch bestSimilarity = (bestMatch, bestSimilarity) /\
     noneAbove emb bestSimilarity entries) \/
    (exists pre id g post,
        entries = pre ++ (id, g) :: post /\
        matchLoop emb entries bestMatch bestSimilarity =
          (Some id, cosineSimilarity emb (referenceEmbedding g)) /\
        F64.gt (cosineSimilarity emb (referenceEmbedding g)) bestSimilarity = true /\
        (forall id' g', In (id', g') pre ->
           F64.gt (cosineSimilarity emb (referenceEmbedding g'))
             (cosineSimilarity emb (referenceEmbedding g)) = false /\
           F64.strict_eq (cosineSimilarity emb (referenceEmbedding g'))
             (cosineSimilarity emb (referenceEmbedding g)) = false) /\
        noneAbove emb (cosineSimilarity emb (referenceEmbedding g)) post).
Proof.
  induction entries as [|[k v] rest IH]; intros bm bs; cbn [matchLoop].
  - left. split; [reflexivity|intros id g []].
  - destruct (F64.gt (cosineSimilarity emb (referenceEmbedding v)) bs) eqn:Hgt.
    + right.
      destruct (IH (Some k) (cosineSimilarity emb (referenceEmbedding v)))
        as [[Hrun Hnone]|(pre & id & g & post & -> & Hrun & Habove & Hpre & Hpost)].
      * exists [], k, v, rest.
        split; [reflexivity|]. split; [exact Hrun|]. split; [exact Hgt|].
        split; [intros id' g' []|exact Hnone].
      * exists ((k, v) :: pre), id, g, post.
        split; [reflexivity|]. split; [exact Hrun|].
        split; [exact (f64_gt_trans _ _ _ Habove Hgt)|]. split; [|exact Hpost].
        intros id' g' [Heq|Hin]; [|exact (Hpre _ _ Hin)]. injection Heq as <- <-.
        split; [now apply f64_gt_asym|].
        apply (f64_below_not_eq _ _ _ Habove), f64_gt_irrefl.
    + destruct (IH bm bs)
        as [[Hrun Hnone]|(pre & id & g & post & -> & Hrun & Habove & Hpre & Hpost)].
      * left. split; [exact Hrun|].
        intros id g [Heq|Hin]; [injection Heq as <- <-; exact Hgt|now apply (Hnone id)].
      * right. exists ((k, v) :: pre), id, g, post.
        split; [reflexivity|]. split; [exact Hrun|]. split; [exact Habove|].
        split; [|exact Hpost].
        intros id' g' [Heq|Hin]; [|exact (Hpre _ _ Hin)]. injection Heq as <- <-.
        split; [exact (f64_not_gt_above _ _ _ Hgt Habove)|].
        exact (f64_below_not_eq _ _ _ Habove Hgt).
Qed.

(** X17. Among clusters that are equally similar, [matchFace] picks the one
    that comes first in the map: the cluster it returns is above the
    threshold, no cluster before it is as similar or more, and no cluster
    behind it is more similar. *)
Theorem matchFace_first_among_best (emb : list float) (threshold : float)
    (fg : JsMap.t) (id : string) (sim : float) :
  matchFace emb threshold fg = Some (id, sim) ->
  exists pre g post,
    fg = pre ++ (id, g) :: post /\
    sim = cosineSimilarity emb (referenceEmbedding g) /\
    F64.gt sim threshold = true /\
    (forall id' g', In (id', g') pre ->
       F64.gt (cosineSimilarity emb (referenceEmbedding g')) sim = false /\
       F64.strict_eq (cosineSimilarity emb (referenceEmbedding g')) sim = false) /\
    noneAbove emb sim post.
Proof.
  unfold matchFace. intros Hmatch.
  destruct (matchLoop_first_best emb fg None threshold)
    as [[Hrun _]|(pre & id' & g & post & Hfg & Hrun & Habove & Hpre & Hpost)];
    rewrite Hrun in Hmatch; [discriminate|].
  destruct (truthy id'); [|discriminate]. injection Hmatch as <- <-.
  now exists pre, g, post.
Qed.

Lemma matchFace_first_among_best_witness :
  exists pre g post,
    [("a", mkGroup [1%float; 0%float] ["x.jpg"]);
     ("b", mkGroup [2%float; 0%float] ["y.jpg"])]%string = pre ++ ("a"%string, g) :: post /\
    1%float = cosineSimilarity [3%float; 0%float] (referenceEmbedding g) /\
    F64.gt 1%float defaultThreshold = true /\
    (forall id' g', In (id', g') pre ->
       F64.gt (cosineSimilarity [3%float; 0%float] (referenceEmbedding g')) 1%float = false /\
       F64.strict_eq (cosineSimilarity [3%float; 0%float] (referenceEmbedding g')) 1%float
         = false) /\
    noneAbove [3%float; 0%float] 1%float post.
Proof.
  apply (matchFace_first_among_best [3%float; 0%float] defaultThreshold
           [("a", mkGroup [1%float; 0%float] ["x.jpg"]);
            ("b", mkGroup [2%float; 0%float] ["y.jpg"])]%string "a"%string 1%float).
  vm_compute. reflexivity.
Defined.

(** X18. While no cluster id is the empty string, [matchFace] returns [null]
    exactly when no cluster is more similar than the threshold. *)
Theorem matchFace_null_iff_none_above (emb : list float) (threshold : float)
    (fg : JsMap.t) :
  idsTruthy fg ->
  (matchFace emb threshold fg = None <-> noneAbove emb threshold fg).
Proof.
  intros Hids. split; [|apply matchFace_none].
  unfold matchFace. intros Hnull.
  destruct (matchLoop_spec emb fg None threshold)
    as [[_ Hnone]|(id & g & Hin & Hrun & _)]; [exact Hnone|].
  rewrite Hrun in Hnull. unfold truthy in Hnull.
  destruct (String.eqb_spec id "") as [->|Hne]; [|discriminate].
  now destruct (Hids _ _ Hin).
Qed.

Lemma matchFace_null_iff_none_above_witness :
  matchFace [0%float; 1%float] defaultThreshold
    [("a"%string, mkGroup [1%float; 0%float] ["x.jpg"%string])] = None <->
  noneAbove [0%float; 1%float] defaultThreshold
    [("a"%string, mkGroup [1%float; 0%float] ["x.jpg"%string])].
Proof.
  apply (matchFace_null_iff_none_above [0%float; 1%float] defaultThreshold
           [("a"%string, mkGroup [1%float; 0%float] ["x.jpg"%string])]).
  intros id g [Heq|[]]. injection Heq as <- _. discriminate.
Defined.

(** ** Batches *)

Lemma sameState_refl (s : Store) : sameState s s.
Proof. now repeat split. Qed.

Lemma sameState_sym (s t : Store) : sameState s t -> sameState t s.
Proof. intros (H1 & H2 & H3 & H4). now repeat split. Qed.

Lemma sameState_trans (s t u : Store) : sameState s t -> sameState t u -> sameState s u.
Proof.
  intros (H1 & H2 & H3 & H4) (K1 & K2 & K3 & K4).
  repeat split; congruence.
Qed.

Lemma sameState_logEvent (ev : Event) (s : Store) : sameState (logEvent ev s) s.
Proof. now repeat split. Qed.

Lemma assignFace_sameState (env : Env) (name : string) (face : Face) (s t : Store) :
  sameState s t ->
  snd (assignFace env name s face) = snd (assignFace env name t face) /\
  sameState (fst (assignFace env name s face)) (fst (assignFace env name t face)).
Proof.
  destruct s as [fg ff gf d tr], t as [fg' ff' gf' d' tr'].
  unfold sameState. cbn [faceGroups faceFiles groupsFile draws].
  intros (<- & <- & <- & <-). unfold assignFace. cbn [faceGroups draws faceFiles groupsFile].
  destruct (matchFace (embedding face) defaultThreshold fg) as [[gid sim]|].
  - cbn [fst snd withGroups faceGroups faceFiles groupsFile draws]. now repeat split.
  - cbn [fst snd faceGroups faceFiles groupsFile draws]. now repeat split.
Qed.

Lemma assignFaces_sameState (env : Env) (name : string) (detected : list Face) :
  forall (s t : Store) (emitted : list GroupRef),
    sameState s t ->
    snd (assignFaces env name detected s emitted) =
      snd (assignFaces env name detected t emitted) /\
    sameState (fst (assignFaces env name detected s emitted))
      (fst (assignFaces env name detected t emitted)).
Proof.
  induction detected as [|face rest IH]; intros s t emitted Hsame; cbn [assignFaces].
  - split; [reflexivity|exact Hsame].
  - destruct (assignFace_sameState env name face s t Hsame) as [Hentry Hstep].
    destruct (assignFace env name s face) as [s' e], (assignFace env name t face) as [t' e'].
    cbn [fst snd] in Hentry, Hstep. subst e'. now apply IH.
Qed.

(** [processImage] does not read the trace. *)
Lemma processImage_sameState (env : Env) (name : string) (s t : Store) :
  sameState s t ->
  fst (processImage env name s) = fst (processImage env name t) /\
  sameState (snd (processImage env name s)) (snd (processImage env name t)).
Proof.
  intros Hsame. pose proof Hsame as (Hfg & Hff & Hgf & Hd).
  unfold processImage.
  destruct (existsSync env (imagePath env name)); cbn [negb];
    [|split; [reflexivity|exact Hsame]].
  rewrite <- Hff.
  destruct (faceFiles s !! faceDataKey name); [split; [reflexivity|exact Hsame]|].
  destruct (detectFaces env (imagePath env name)) as [detected|msg].
  - destruct (Nat.eqb (length detected) 0).
    + split; [reflexivity|]. unfold sameState.
      cbn [snd writeRecord logEvent faceGroups faceFiles groupsFile draws].
      repeat split; congruence.
    + destruct (assignFaces_sameState env name detected
                  (logEvent (Detect (imagePath env name)) s)
                  (logEvent (Detect (imagePath env name)) t) [])
        as [Hentries (Kfg & Kff & Kgf & Kd)].
      { unfold sameState. cbn [logEvent faceGroups faceFiles groupsFile draws].
        now repeat split. }
      destruct (assignFaces env name detected (logEvent _ s) []) as [s2 e2],
               (assignFaces env name detected (logEvent _ t) []) as [t2 e2'].
      cbn [fst snd] in *. subst e2'. split; [reflexivity|].
      unfold sameState.
      cbn [saveFaceGroups writeRecord faceGroups faceFiles groupsFile draws].
      repeat split; congruence.
  - split; [reflexivity|]. unfold sameState.
    cbn [snd logEvent faceGroups faceFiles groupsFile draws]. now repeat split.
Qed.

Lemma processImagesFrom_oneByOne (env : Env) (cb : option Callback) (total : nat)
    (filenames : list string) :
  forall i s t acc,
    sameState s t ->
    sameState (snd (processImagesFrom env cb total i filenames s acc))
      (oneByOne env filenames t).
Proof.
  unfold oneByOne.
  induction filenames as [|name rest IH]; intros i s t acc Hsame;
    cbn [processImagesFrom fold_left]; [exact Hsame|].
  destruct (processImage_sameState env name s t Hsame) as [_ Hstep].
  destruct (processImage env name s) as [[result|message] s1]; cbn [snd] in Hstep;
    [|now apply IH].
  destruct cb as [callback|]; [|now apply IH].
  assert (sameState (logEvent (Progress (i + 1) total name) s1)
            (snd (processImage env name t))) as Hlog
    by exact (sameState_trans _ _ _ (sameState_logEvent _ s1) Hstep).
  destruct (callback (i + 1) total name); now apply IH.
Qed.

(** X19. The clusters, record files, [face-groups.json] and count of
    generated ids that [processImages] leaves are the ones left by calling
    [processImage] on each file name in turn: the callback, and whether it
    throws, has no bearing on them. *)
Theorem processImages_state_is_one_by_one (env : Env) (filenames : list string)
    (cb : option Callback) (st : Store) :
  sameState (snd (processImages env filenames cb st)) (oneByOne env filenames st).
Proof. apply processImagesFrom_oneByOne, sameState_refl. Qed.









